(** * Stroke geometry of the whiteboard: utils/mathUtils.ts

    A shallow embedding of the geometry helpers of the whiteboard
    (point distance, point-to-segment distance, Ramer-Douglas-Peucker
    simplification, the eraser hit test and the shape recogniser) and the
    properties the specification states about them; then the pure parts of
    the whiteboard component that calls them (eraser, undo, zoom bounds, shape
    correction) and the 16-bit audio samples of the AI service module.

    Numbers.  The code is embedded twice.

    The first embedding computes without rounding, on real numbers, as the
    data model of the specification does ("two real-valued coordinates"):
    [Math.sqrt] is [sqrt], [Math.pow (a, 2)] is [a ^ 2], [Math.min] and
    [Math.max] are [Rmin] and [Rmax], [Math.cos], [Math.sin] and [Math.PI]
    are [cos], [sin] and [PI].  What is proved on it holds of the program
    where the statement rests on the comparisons and the list operations of
    the code, not on exact values.

    The second embedding, [Binary64], computes on IEEE 754 binary64 numbers
    as the program does, rounding, NaN and infinities included.  It decides
    the properties for which rounding matters, and the examples on which the
    program departs from exact arithmetic are evaluated on it. *)

From Stdlib Require Import Floats.
From Stdlib Require Import String.
From Stdlib Require Import Reals Lra Lia Psatz List Bool Arith ZArith.
Import ListNotations.

Open Scope R_scope.

(** ** Data model (types.ts) *)

Inductive ToolType : Set :=
  | PEN | HIGHLIGHTER | ERASER | SELECT | HAND | LASER.

Record Point : Set := mkPoint { x : R; y : R }.

Record DrawingPath : Type := mkDrawingPath {
  points  : list Point;
  color   : string;
  width   : R;
  tool    : ToolType;
  opacity : R;
  isShape : option bool   (* optional field: [None] when absent *)
}.

(** Value read by [nth] outside the bounds of an array.  JavaScript yields
    [undefined] there; every access below is shown to be within bounds
    wherever a claim depends on it. *)
Definition origin : Point := mkPoint 0 0.

(** Comparisons on numbers as booleans. *)
Definition Rltb (a b : R) : bool := if Rlt_dec a b then true else false.
Definition Rgtb (a b : R) : bool := Rltb b a.
Definition Reqb (a b : R) : bool := if Req_dec_T a b then true else false.

(** ** Geometry primitives *)

(** [distance]: Math.sqrt(Math.pow(p2.x - p1.x, 2) + Math.pow(p2.y - p1.y, 2)) *)
Definition distance (p1 p2 : Point) : R :=
  sqrt ((x p2 - x p1) ^ 2 + (y p2 - y p1) ^ 2).

(** The projection parameter of [p] on the line through [v] and [w], before
    it is clamped (line 12 of the source). *)
Definition projParam (p v w : Point) : R :=
  ((x p - x v) * (x w - x v) + (y p - y v) * (y w - y v)) / (distance v w ^ 2).

(** The point of the line through [v] and [w] at parameter [t]. *)
Definition pointAt (v w : Point) (t : R) : Point :=
  mkPoint (x v + t * (x w - x v)) (y v + t * (y w - y v)).

(** [distToSegment]: the division by [l2] is reached only when [l2 <> 0]. *)
Definition distToSegment (p v w : Point) : R :=
  let l2 := distance v w ^ 2 in
  if Reqb l2 0 then distance p v
  else
    let t := projParam p v w in
    let t := Rmax 0 (Rmin 1 t) in
    let projection := pointAt v w t in
    distance p projection.

(** ** Polyline simplification (Ramer-Douglas-Peucker) *)

(** One iteration of the scan [for (let i = 1; i < end; i++)], on the loop
    state [(dmax, index)]. *)
Definition scanStep (pts : list Point) (endIdx : nat)
    (st : R * nat) (i : nat) : R * nat :=
  let d := distToSegment (nth i pts origin) (nth 0 pts origin) (nth endIdx pts origin) in
  if Rgtb d (fst st) then (d, i) else st.

Definition scan (pts : list Point) (endIdx : nat) : R * nat :=
  fold_left (scanStep pts endIdx) (seq 1 (endIdx - 1)) (0, 0%nat).

(** [simplifyPoints].  The source recurses on two slices of the array; the
    recursion is not structural, and for a negative [epsilon] it need not end,
    so the embedding carries a bound on the depth of the recursion: [None]
    means that the bound was reached.  [points.slice(0, index + 1)] is
    [firstn (index + 1)], [points.slice(index)] is [skipn index] and
    [res1.slice(0, -1)] is [removelast]. *)
Fixpoint simplifyPoints (fuel : nat) (pts : list Point) (epsilon : R)
    : option (list Point) :=
  match fuel with
  | O => None
  | S fuel' =>
      if (length pts <? 3)%nat then Some pts
      else
        let endIdx := (length pts - 1)%nat in
        let '(dmax, index) := scan pts endIdx in
        if Rgtb dmax epsilon then
          match simplifyPoints fuel' (firstn (index + 1) pts) epsilon with
          | None => None
          | Some res1 =>
              match simplifyPoints fuel' (skipn index pts) epsilon with
              | None => None
              | Some res2 => Some (removelast res1 ++ res2)
              end
          end
        else Some [nth 0 pts origin; nth endIdx pts origin]
  end.

(** ** Bounding box *)

(** [Math.min(...xs)] and [Math.max(...xs)].  On an empty array JavaScript
    gives [Infinity] and [-Infinity]; both callers have checked the length
    before, the value [0] chosen here is never used. *)
Definition minOf (l : list R) : R :=
  match l with
  | [] => 0
  | a :: r => fold_left Rmin r a
  end.

Definition maxOf (l : list R) : R :=
  match l with
  | [] => 0
  | a :: r => fold_left Rmax r a
  end.

(** ** Stroke hit test (eraser) *)

(** The loop [for (let i = 0; i < path.points.length - 1; i++)] with its
    early [return true]. *)
Fixpoint segmentCheck (point : Point) (pts : list Point) (radius : R) : bool :=
  match pts with
  | a :: (b :: _) as rest =>
      if Rltb (distToSegment point a b) radius then true
      else segmentCheck point rest radius
  | _ => false
  end.

Definition isPointNearPath (point : Point) (path : DrawingPath) (threshold : R) : bool :=
  if (length (points path) <? 2)%nat then false
  else
    let xs := map x (points path) in
    let ys := map y (points path) in
    let minX := minOf xs - threshold in
    let maxX := maxOf xs + threshold in
    let minY := minOf ys - threshold in
    let maxY := maxOf ys + threshold in
    if Rltb (x point) minX || Rgtb (x point) maxX
       || Rltb (y point) minY || Rgtb (y point) maxY
    then false
    else segmentCheck point (points path) (threshold + width path / 2).

(** The consecutive segments of a polyline: [(p0, p1); (p1, p2); ...]. *)
Fixpoint segmentsOf (pts : list Point) : list (Point * Point) :=
  match pts with
  | a :: (b :: _) as rest => (a, b) :: segmentsOf rest
  | _ => []
  end.

(** The hit test without the bounding-box filter, in the specification's
    words: the distance from the query point to some consecutive segment of
    the stroke is below [threshold + width / 2].  A stroke with fewer than two
    points has no segment. *)
Definition isPointNearPath_unfiltered (point : Point) (path : DrawingPath)
    (threshold : R) : bool :=
  existsb (fun s => Rltb (distToSegment point (fst s) (snd s)) (threshold + width path / 2))
          (segmentsOf (points path)).

(** ** Shape recognition *)

(** What a call of the recogniser does.  [Diverged] stands for a call of
    [simplifyPoints] that does not return.  A division by a computed divisor
    that is zero has no real value (JavaScript would continue with NaN or an
    infinity): the embedding reports it as [DivisionByZero] instead of giving
    it one.  Divisions by the literals 2 and 45 are plain divisions. *)
Inductive outcome (A : Type) : Type :=
  | Returned (a : A)
  | DivisionByZero
  | Diverged.
Arguments Returned {A} a.
Arguments DivisionByZero {A}.
Arguments Diverged {A}.

Definition bind {A B : Type} (m : outcome A) (k : A -> outcome B) : outcome B :=
  match m with
  | Returned a => k a
  | DivisionByZero => DivisionByZero
  | Diverged => Diverged
  end.

Notation "v <- m ;; k" := (bind m (fun v => k))
  (at level 61, m at next level, right associativity).

Definition divide (a b : R) : outcome R :=
  if Reqb b 0 then DivisionByZero else Returned (a / b).

Definition fromOption {A : Type} (o : option A) : outcome A :=
  match o with
  | Some a => Returned a
  | None => Diverged
  end.

(** [points.reduce((acc, p, i) => i > 0 ? acc + distance(points[i-1], p) : 0, 0)] *)
Definition totalLengthStep (pts : list Point) (acc : R) (ip : nat * Point) : R :=
  if (0 <? fst ip)%nat then acc + distance (nth (fst ip - 1) pts origin) (snd ip)
  else 0.

Definition totalLength (pts : list Point) : R :=
  fold_left (totalLengthStep pts) (combine (seq 0 (length pts)) pts) 0.

(** [dists.reduce((a, b) => a + b, 0)] *)
Definition sumOf (l : list R) : R := fold_left Rplus l 0.

(** [dists.reduce((a, b) => a + Math.pow(b - avgDist, 2), 0)] *)
Definition sumSqDev (avg : R) (l : list R) : R :=
  fold_left (fun a b => a + (b - avg) ^ 2) l 0.

(** The loop [for (let i = 0; i <= segments; i++)] that builds the ellipse. *)
Definition ellipsePoints (center : Point) (rx ry : R) : list Point :=
  let segments := 45%nat in
  map (fun i =>
         let angle := (INR i / INR segments) * PI * 2 in
         mkPoint (x center + rx * cos angle) (y center + ry * sin angle))
      (seq 0 (segments + 1)).

(** The branch [if (n >= 5)]: circle or polygon. *)
Definition classifyRound (simplified : list Point) (n : Z)
    (minX minY w h : R) : outcome (option (list Point)) :=
  let center := mkPoint (minX + w / 2) (minY + h / 2) in
  let dists := map (fun p => distance p center) (firstn (Z.to_nat n) simplified) in
  avgDist <- divide (sumOf dists) (IZR n) ;;
  variance <- divide (sumSqDev avgDist dists) (IZR n) ;;
  let stdDev := sqrt variance in
  cv <- divide stdDev avgDist ;;
  if Rltb cv (15 / 100) then
    let rx := w / 2 in
    let ry := h / 2 in
    Returned (Some (ellipsePoints center rx ry))
  else Returned (Some (firstn (Z.to_nat n) simplified)).

Definition recognizeShape (fuel : nat) (pts : list Point)
    : outcome (option (list Point)) :=
  if (length pts <? 10)%nat then Returned None
  else
    let start := nth 0 pts origin in
    let end_ := nth (length pts - 1) pts origin in
    let total := totalLength pts in
    let directDistance := distance start end_ in
    let isClosed := Rltb (distance start end_) (total * (25 / 100)) in
    if negb isClosed then
      if Rltb total (directDistance * (12 / 10)) then Returned (Some [start; end_])
      else Returned None
    else
      let xs := map x pts in
      let ys := map y pts in
      let minX := minOf xs in
      let maxX := maxOf xs in
      let minY := minOf ys in
      let maxY := maxOf ys in
      let w := maxX - minX in
      let h := maxY - minY in
      let diagonal := sqrt (w * w + h * h) in
      let epsilon := diagonal * (5 / 100) in
      simplified <- fromOption (simplifyPoints fuel pts epsilon) ;;
      let n := (Z.of_nat (length simplified) - 1)%Z in
      if (n =? 3)%Z then Returned (Some (firstn 3 simplified))
      else if (n =? 4)%Z then
        Returned (Some [mkPoint minX minY; mkPoint maxX minY;
                        mkPoint maxX maxY; mkPoint minX maxY])
      else if (n >=? 5)%Z then classifyRound simplified n minX minY w h
      else Returned None.

(** ** The specification's vocabulary *)

(** The sum of the distances between consecutive points. *)
Fixpoint pathLength (pts : list Point) : R :=
  match pts with
  | a :: (b :: _) as rest => distance a b + pathLength rest
  | _ => 0
  end.




(** Width, height, diagonal and centre of the bounding box of the points. *)
Definition boxWidth (pts : list Point) : R := maxOf (map x pts) - minOf (map x pts).
Definition boxHeight (pts : list Point) : R := maxOf (map y pts) - minOf (map y pts).
Definition boxDiagonal (pts : list Point) : R :=
  sqrt (boxWidth pts * boxWidth pts + boxHeight pts * boxHeight pts).
Definition boxCenter (pts : list Point) : Point :=
  mkPoint (minOf (map x pts) + boxWidth pts / 2) (minOf (map y pts) + boxHeight pts / 2).

(** The tolerance the recogniser simplifies with. *)
Definition shapeEpsilon (pts : list Point) : R := boxDiagonal pts * (5 / 100).

(** A stroke is closed when its ends are nearer than a quarter of its length. *)
Definition closedStroke (pts : list Point) : Prop :=
  distance (hd origin pts) (last pts origin) < (25 / 100) * pathLength pts.

(** ** Auxiliary notions of the proofs *)

(** The clamp of the projection parameter, [Math.max(0, Math.min(1, t))]. *)
Definition clamp01 (t : R) : R := Rmax 0 (Rmin 1 t).

(** The distance the scan computes for index [i]. *)
Definition scanDist (pts : list Point) (endIdx : nat) (i : nat) : R :=
  distToSegment (nth i pts origin) (nth 0 pts origin) (nth endIdx pts origin).

(** A call of [simplifyPoints] that returns [out]. *)
Definition returns (eps : R) (pts out : list Point) : Prop :=
  exists fuel, simplifyPoints fuel pts eps = Some out.

(** A short input is returned as it is; a longer one gives the first point,
    some points, and the last point. *)
Definition keepsEnds (pts out : list Point) : Prop :=
  ((length pts < 2)%nat -> out = pts) /\
  ((2 <= length pts)%nat ->
   exists mid, out = nth 0 pts origin :: mid ++ [nth (length pts - 1) pts origin]).

(** Subsequences: elements are dropped, the order is kept. *)
Inductive subseq {A : Type} : list A -> list A -> Prop :=
  | subseq_nil : subseq [] []
  | subseq_skip a l1 l2 : subseq l1 l2 -> subseq l1 (a :: l2)
  | subseq_keep a l1 l2 : subseq l1 l2 -> subseq (a :: l1) (a :: l2).

(** The test that the query point lies outside the box grown by [threshold]. *)
Definition outsideBox (point : Point) (pts : list Point) (threshold : R) : bool :=
  Rltb (x point) (minOf (map x pts) - threshold)
  || Rgtb (x point) (maxOf (map x pts) + threshold)
  || Rltb (y point) (minOf (map y pts) - threshold)
  || Rgtb (y point) (maxOf (map y pts) + threshold).


(** What the recogniser does with the simplified polyline of a closed stroke. *)
Definition classifyClosed (pts simplified : list Point) : outcome (option (list Point)) :=
  let n := (Z.of_nat (length simplified) - 1)%Z in
  if (n =? 3)%Z then Returned (Some (firstn 3 simplified))
  else if (n =? 4)%Z then
    Returned (Some [mkPoint (minOf (map x pts)) (minOf (map y pts));
                    mkPoint (maxOf (map x pts)) (minOf (map y pts));
                    mkPoint (maxOf (map x pts)) (maxOf (map y pts));
                    mkPoint (minOf (map x pts)) (maxOf (map y pts))])
  else if (n >=? 5)%Z then
    classifyRound simplified n (minOf (map x pts)) (minOf (map y pts))
                  (boxWidth pts) (boxHeight pts)
  else Returned None.

(** The distances from the first [n] simplified vertices to the centre. *)
Definition vertexDists (simplified : list Point) (center : Point) (n : Z) : list R :=
  map (fun p => distance p center) (firstn (Z.to_nat n) simplified).

(** ** Strokes used as examples *)

(** Three points on a line, and a negative tolerance. *)
Definition collinear3 : list Point := [mkPoint 0 0; mkPoint 1 0; mkPoint 2 0].

(** A pen stroke of width 12 along the x axis. *)
Definition penStroke : DrawingPath :=
  mkDrawingPath [mkPoint 0 0; mkPoint 10 0] "#000000" 12 PEN 1 None.


(** A stroke that rests at (0, 0) and then runs around the rectangle with
    corners (0, 0), (4, 0), (4, 3) and (0, 3). *)
Definition rectStroke : list Point :=
  [mkPoint 0 0; mkPoint 0 0; mkPoint 0 0; mkPoint 0 0; mkPoint 0 0; mkPoint 0 0;
   mkPoint 4 0; mkPoint 4 3; mkPoint 0 3; mkPoint 0 0].

(** Three times the same point. *)
Definition restingStroke : list Point := [mkPoint 1 1; mkPoint 1 1; mkPoint 1 1].





(** ** The whiteboard component (components/Whiteboard.tsx) *)

(** [handleWheel]: the new zoom and pan after a wheel event with vertical
    delta [deltaY] at the screen position [mousePos]. *)
Definition handleWheel (scale : R) (offset : Point) (deltaY : R) (mousePos : Point)
    : R * Point :=
  let zoomIntensity := 1 / 1000 in
  let delta := - deltaY * zoomIntensity in
  let newScale := Rmin (Rmax (1 / 10) (scale * (1 + delta))) 10 in
  let worldPos := mkPoint ((x mousePos - x offset) / scale)
                          ((y mousePos - y offset) / scale) in
  let newOffset := mkPoint (x mousePos - x worldPos * newScale)
                           (y mousePos - y worldPos * newScale) in
  (newScale, newOffset).

(** The eraser of [startInteraction] and [moveInteraction]: the strokes that
    stay on the board when the eraser is at [worldPos]. *)
Definition erasePaths (worldPos : Point) (scale : R) (paths : list DrawingPath)
    : list DrawingPath :=
  let worldThreshold := 10 / scale in
  let newPaths := filter (fun p => negb (isPointNearPath worldPos p worldThreshold)) paths in
  if negb (length newPaths =? length paths)%nat then newPaths else paths.

(** [undo] and [addPath] of the component's handle. *)
Definition undo (paths : list DrawingPath) : list DrawingPath := removelast paths.

Definition addPath (paths : list DrawingPath) (newPath : DrawingPath) : list DrawingPath :=
  paths ++ [newPath].

(** The update of the stroke in progress that [startShapeTimer] schedules. *)
Definition shapeCorrection (fuel : nat) (prev : option DrawingPath)
    : outcome (option DrawingPath) :=
  match prev with
  | None => Returned None
  | Some path =>
      if (length (points path) <? 5)%nat then Returned prev
      else
        correctedPoints <- recognizeShape fuel (points path) ;;
        match correctedPoints with
        | Some corrected =>
            Returned (Some (mkDrawingPath corrected (color path) (width path)
                                          (tool path) (opacity path) (Some true)))
        | None => Returned prev
        end
  end.

(** A dot: the stroke of a click without a move. *)
Definition dotStroke : DrawingPath :=
  mkDrawingPath [mkPoint 5 0] "#000000" 12 PEN 1 None.

(** ** Audio samples (the AI service module, src/unnamed/part_004) *)

(** The integer part of a number, towards zero: the first step of the
    conversion of a number to a 16-bit integer in [DataView.setInt16]. *)
Definition truncate (r : R) : Z :=
  if Rle_dec 0 r then Int_part r else (- Int_part (- r))%Z.

(** The conversion of a number to a signed 16-bit integer: the integer part
    modulo 2^16, read as a signed value. *)
Definition toInt16 (r : R) : Z :=
  let m := (truncate r mod 65536)%Z in
  if (32768 <=? m)%Z then (m - 65536)%Z else m.

(** [view.setInt16(offset, value, true)]: the two bytes written, low byte
    first. *)
Definition setInt16LE (value : R) : list Z :=
  let u := (toInt16 value mod 65536)%Z in
  [(u mod 256)%Z; (u / 256)%Z].

(** [float32To16BitPCM]: the bytes of the buffer returned. *)
Definition float32To16BitPCM (float32Arr : list R) : list Z :=
  flat_map (fun sample =>
              let s := Rmax (-1) (Rmin 1 sample) in
              setInt16LE (if Rltb s 0 then s * 32768 else s * 32767))
           float32Arr.

(** [new Int16Array(bytes.buffer)] on a little-endian platform: the signed
    16-bit values of the pairs of bytes; a buffer of odd length is refused. *)
Fixpoint int16Array (bytes : list Z) : option (list Z) :=
  match bytes with
  | [] => Some []
  | lo :: hi :: rest =>
      match int16Array rest with
      | Some values =>
          let u := (lo + 256 * hi)%Z in
          Some ((if (32768 <=? u)%Z then (u - 65536)%Z else u) :: values)
      | None => None
      end
  | [_] => None
  end.

(** The samples that [base64ToAudioBuffer] computes from the decoded bytes:
    [float32[i] = dataInt16[i] / 32768.0]. *)
Definition pcmToFloat32 (bytes : list Z) : option (list R) :=
  option_map (map (fun v => IZR v / 32768)) (int16Array bytes).

(** * The same code on binary64 numbers

    The functions of utils/mathUtils.ts and the shape correction of the
    whiteboard once more, on the numbers JavaScript computes with: [float] is
    IEEE 754 binary64 with round to nearest even, as [+], [-], [*], [/] and
    [Math.sqrt] are.  ECMAScript leaves the accuracy of [Math.pow],
    [Math.cos] and [Math.sin] to the implementation.  [Math.pow (a, 2)] is
    taken as the product [a * a] rounded once, which is what the fdlibm [pow]
    of V8 and SpiderMonkey returns for the exponent 2.  [Math.cos] and
    [Math.sin] are parameters of the recogniser. *)

Module Binary64.

#[local] Set Warnings "-inexact-float".
Local Open Scope float_scope.

Record Point : Set := mkPoint { x : float; y : float }.

Record DrawingPath : Type := mkDrawingPath {
  points  : list Point;
  color   : string;
  width   : float;
  tool    : ToolType;
  opacity : float;
  isShape : option bool
}.

Definition origin : Point := mkPoint 0 0.

(** An integer of the program (an array length, a loop counter) as a
    number; exact below 2^53. *)
Definition number (n : Z) : float :=
  if (n <? 0)%Z then - of_uint63 (Uint63.of_Z (- n)) else of_uint63 (Uint63.of_Z n).

(** [Math.pow(a, 2)] *)
Definition pow2 (a : float) : float := a * a.

(** [Math.min] and [Math.max] of two numbers: NaN when one of them is NaN,
    and [-0] is below [+0]. *)
Definition Math_min (a b : float) : float :=
  if is_nan a || is_nan b then nan
  else if a <? b then a
  else if b <? a then b
  else if get_sign a then a else b.

Definition Math_max (a b : float) : float :=
  if is_nan a || is_nan b then nan
  else if a <? b then b
  else if b <? a then a
  else if get_sign a then b else a.

(** [Math.sqrt], correctly rounded as IEEE 754 and ECMAScript require. *)
Definition Math_sqrt (a : float) : float := PrimFloat.sqrt a.

(** [Math.PI] *)
Definition Math_PI : float := 0x1.921fb54442d18p+1.

(** [Math.min(...xs)] and [Math.max(...xs)] *)
Definition minOf (l : list float) : float := fold_left Math_min l infinity.
Definition maxOf (l : list float) : float := fold_left Math_max l neg_infinity.

(** [distance] *)
Definition distance (p1 p2 : Point) : float :=
  Math_sqrt (pow2 (x p2 - x p1) + pow2 (y p2 - y p1)).

(** [distToSegment] *)
Definition distToSegment (p v w : Point) : float :=
  let l2 := pow2 (distance v w) in
  if l2 =? 0 then distance p v
  else
    let t := ((x p - x v) * (x w - x v) + (y p - y v) * (y w - y v)) / l2 in
    let t := Math_max 0 (Math_min 1 t) in
    let projection := mkPoint (x v + t * (x w - x v)) (y v + t * (y w - y v)) in
    distance p projection.

(** [simplifyPoints]: the scan of the loop, then the recursion, bounded as
    above. *)
Definition scanStep (pts : list Point) (endIdx : nat)
    (st : float * nat) (i : nat) : float * nat :=
  let d := distToSegment (nth i pts origin) (nth 0 pts origin) (nth endIdx pts origin) in
  if fst st <? d then (d, i) else st.

Definition scan (pts : list Point) (endIdx : nat) : float * nat :=
  fold_left (scanStep pts endIdx) (seq 1 (endIdx - 1)) (0, 0%nat).

Fixpoint simplifyPoints (fuel : nat) (pts : list Point) (epsilon : float)
    : option (list Point) :=
  match fuel with
  | O => None
  | S fuel' =>
      if (length pts <? 3)%nat then Some pts
      else
        let endIdx := (length pts - 1)%nat in
        let '(dmax, index) := scan pts endIdx in
        if epsilon <? dmax then
          match simplifyPoints fuel' (firstn (index + 1) pts) epsilon with
          | None => None
          | Some res1 =>
              match simplifyPoints fuel' (skipn index pts) epsilon with
              | None => None
              | Some res2 => Some (removelast res1 ++ res2)
              end
          end
        else Some [nth 0 pts origin; nth endIdx pts origin]
  end.

(** [isPointNearPath] *)
Fixpoint segmentCheck (point : Point) (pts : list Point) (radius : float) : bool :=
  match pts with
  | a :: (b :: _) as rest =>
      if distToSegment point a b <? radius then true
      else segmentCheck point rest radius
  | _ => false
  end.

Definition isPointNearPath (point : Point) (path : DrawingPath) (threshold : float) : bool :=
  if (length (points path) <? 2)%nat then false
  else
    let xs := map x (points path) in
    let ys := map y (points path) in
    let minX := minOf xs - threshold in
    let maxX := maxOf xs + threshold in
    let minY := minOf ys - threshold in
    let maxY := maxOf ys + threshold in
    if (x point <? minX) || (maxX <? x point) || (y point <? minY) || (maxY <? y point)
    then false
    else segmentCheck point (points path) (threshold + width path / 2).

Fixpoint segmentsOf (pts : list Point) : list (Point * Point) :=
  match pts with
  | a :: (b :: _) as rest => (a, b) :: segmentsOf rest
  | _ => []
  end.

(** [recognizeShape] *)
Definition totalLengthStep (pts : list Point) (acc : float) (ip : nat * Point) : float :=
  if (0 <? fst ip)%nat then acc + distance (nth (fst ip - 1) pts origin) (snd ip)
  else 0.

Definition totalLength (pts : list Point) : float :=
  fold_left (totalLengthStep pts) (combine (seq 0 (length pts)) pts) 0.

Definition sumOf (l : list float) : float := fold_left PrimFloat.add l 0.

Definition sumSqDev (avg : float) (l : list float) : float :=
  fold_left (fun a b => a + pow2 (b - avg)) l 0.

Section Platform.
Variables Math_cos Math_sin : float -> float.

Definition ellipsePoints (center : Point) (rx ry : float) : list Point :=
  let segments := 45%nat in
  map (fun i =>
         let angle := (number (Z.of_nat i) / number (Z.of_nat segments)) * Math_PI * 2 in
         mkPoint (x center + rx * Math_cos angle) (y center + ry * Math_sin angle))
      (seq 0 (segments + 1)).

(** The branch [if (n >= 5)].  No division fails in JavaScript: a zero
    divisor gives NaN or an infinity. *)
Definition classifyRound (simplified : list Point) (n : Z)
    (minX minY w h : float) : option (list Point) :=
  let center := mkPoint (minX + w / 2) (minY + h / 2) in
  let dists := map (fun p => distance p center) (firstn (Z.to_nat n) simplified) in
  let avgDist := sumOf dists / number n in
  let variance := sumSqDev avgDist dists / number n in
  let stdDev := Math_sqrt variance in
  let cv := stdDev / avgDist in
  if cv <? 0.15 then
    let rx := w / 2 in
    let ry := h / 2 in
    Some (ellipsePoints center rx ry)
  else Some (firstn (Z.to_nat n) simplified).

Definition recognizeShape (fuel : nat) (pts : list Point)
    : outcome (option (list Point)) :=
  if (length pts <? 10)%nat then Returned None
  else
    let start := nth 0 pts origin in
    let end_ := nth (length pts - 1) pts origin in
    let total := totalLength pts in
    let directDistance := distance start end_ in
    let isClosed := distance start end_ <? total * 0.25 in
    if negb isClosed then
      if total <? directDistance * 1.2 then Returned (Some [start; end_])
      else Returned None
    else
      let xs := map x pts in
      let ys := map y pts in
      let minX := minOf xs in
      let maxX := maxOf xs in
      let minY := minOf ys in
      let maxY := maxOf ys in
      let w := maxX - minX in
      let h := maxY - minY in
      let diagonal := Math_sqrt (w * w + h * h) in
      let epsilon := diagonal * 0.05 in
      simplified <- fromOption (simplifyPoints fuel pts epsilon) ;;
      let n := (Z.of_nat (length simplified) - 1)%Z in
      if (n =? 3)%Z then Returned (Some (firstn 3 simplified))
      else if (n =? 4)%Z then
        Returned (Some [mkPoint minX minY; mkPoint maxX minY;
                        mkPoint maxX maxY; mkPoint minX maxY])
      else if (n >=? 5)%Z then Returned (classifyRound simplified n minX minY w h)
      else Returned None.

(** The update of the stroke in progress that [startShapeTimer] schedules
    (components/Whiteboard.tsx). *)
Definition shapeCorrection (fuel : nat) (prev : option DrawingPath)
    : outcome (option DrawingPath) :=
  match prev with
  | None => Returned None
  | Some path =>
      if (length (points path) <? 5)%nat then Returned prev
      else
        correctedPoints <- recognizeShape fuel (points path) ;;
        match correctedPoints with
        | Some corrected =>
            Returned (Some (mkDrawingPath corrected (color path) (width path)
                                          (tool path) (opacity path) (Some true)))
        | None => Returned prev
        end
  end.

End Platform.

(** ** Quantities of the recogniser *)

Definition boxWidth (pts : list Point) : float := maxOf (map x pts) - minOf (map x pts).
Definition boxHeight (pts : list Point) : float := maxOf (map y pts) - minOf (map y pts).
Definition boxCenter (pts : list Point) : Point :=
  mkPoint (minOf (map x pts) + boxWidth pts / 2) (minOf (map y pts) + boxHeight pts / 2).

(** The tolerance the recogniser simplifies with. *)
Definition shapeEpsilon (pts : list Point) : float :=
  Math_sqrt (boxWidth pts * boxWidth pts + boxHeight pts * boxHeight pts) * 0.05.

(** The test [isClosed]. *)
Definition closedStroke (pts : list Point) : bool :=
  distance (nth 0 pts origin) (nth (length pts - 1) pts origin) <? totalLength pts * 0.25.

(** The coefficient of variation [cv] of the distances from the first [n]
    simplified vertices to [center], as the branch [n >= 5] computes it. *)
Definition vertexDists (simplified : list Point) (center : Point) (n : Z) : list float :=
  map (fun p => distance p center) (firstn (Z.to_nat n) simplified).

Definition avgDist (dists : list float) (n : Z) : float := sumOf dists / number n.

Definition coefficientOfVariation (dists : list float) (n : Z) : float :=
  Math_sqrt (sumSqDev (avgDist dists n) dists / number n) / avgDist dists n.

(** The distance the scan computes for index [i]. *)
Definition scanDist (pts : list Point) (endIdx : nat) (i : nat) : float :=
  distToSegment (nth i pts origin) (nth 0 pts origin) (nth endIdx pts origin).

(** Every input point is kept, or lies on a stretch that the output
    replaces by one segment from which the code measured it not farther
    than [eps]. *)
Definition covered (eps : float) (pts out : list Point) : Prop :=
  forall p, In p pts ->
  In p out \/
  exists s, In s (segmentsOf out) /\ (eps <? distToSegment p (fst s) (snd s)) = false.

(** What the recogniser does with the simplified polyline of a closed stroke. *)
Definition classifyClosed (Math_cos Math_sin : float -> float)
    (pts simplified : list Point) : option (list Point) :=
  let n := (Z.of_nat (length simplified) - 1)%Z in
  if (n =? 3)%Z then Some (firstn 3 simplified)
  else if (n =? 4)%Z then
    Some [mkPoint (minOf (map x pts)) (minOf (map y pts));
          mkPoint (maxOf (map x pts)) (minOf (map y pts));
          mkPoint (maxOf (map x pts)) (maxOf (map y pts));
          mkPoint (minOf (map x pts)) (maxOf (map y pts))]
  else if (n >=? 5)%Z then
    classifyRound Math_cos Math_sin simplified n (minOf (map x pts)) (minOf (map y pts))
                  (boxWidth pts) (boxHeight pts)
  else None.

(** Two numbers that differ by their sign at most. *)
Definition sameMagnitude (a b : spec_float) : Prop :=
  match a, b with
  | S754_zero _, S754_zero _ => True
  | S754_infinity _, S754_infinity _ => True
  | S754_nan, S754_nan => True
  | S754_finite _ m e, S754_finite _ m' e' => m = m' /\ e = e'
  | _, _ => False
  end.

(** The comparison [a < 0] is false: [a] is NaN, a zero, or positive. *)
Definition notNegative (a : spec_float) : Prop :=
  match a with
  | S754_infinity s | S754_finite s _ _ => s = false
  | _ => True
  end.

(** ** Strokes used as examples *)

(** Five points; with tolerance 2 the simplification keeps the two ends. *)
Definition wideA : Point := mkPoint 0.6 2.2.
Definition wideB : Point := mkPoint 0.2 (-0.6).
Definition wideC : Point := mkPoint 2.1 1.7.
Definition wideD : Point := mkPoint 2.6 (-2).
Definition wideE : Point := mkPoint 0.6 (-2.2).
Definition wideStroke : list Point := [wideA; wideB; wideC; wideD; wideE].

(** A stroke that rests at (5, 0) and then runs through points of the circle
    of radius 5 around (0, 0). *)
Definition circleStroke : list Point :=
  [mkPoint 5 0; mkPoint 5 0; mkPoint 5 0; mkPoint 5 0; mkPoint 5 0;
   mkPoint 3 4; mkPoint 0 5; mkPoint (-5) 0; mkPoint 0 (-5); mkPoint 5 0].

(** A closed stroke of eleven points whose coordinates are 0 and
    about 1.2e-162: the squares of its coordinates underflow to 0. *)
Definition tinyStroke : list Point :=
  let a := 1.2e-162 in
  [mkPoint a 0; mkPoint a a; mkPoint 0 (- a); mkPoint 0 a; mkPoint 0 (- a);
   mkPoint 0 (- a); mkPoint a 0; mkPoint 0 0; mkPoint (- a) (- a); mkPoint a (- a);
   mkPoint a 0].

(** A stroke that rests at (0, 0) and then runs around the rectangle with
    corners (0, 0), (4, 0), (4, 3) and (0, 3), drawn with the pen. *)
Definition rectPath : DrawingPath :=
  mkDrawingPath
    [mkPoint 0 0; mkPoint 0 0; mkPoint 0 0; mkPoint 0 0; mkPoint 0 0; mkPoint 0 0;
     mkPoint 4 0; mkPoint 4 3; mkPoint 0 3; mkPoint 0 0]
    "#000000" 2 PEN 1 None.

(** The two values of [Math.cos] and [Math.sin] that decide whether the
    ellipse closes: at the angle [0] of point 0, where ECMAScript fixes
    [cos 0 = 1] and [sin 0 = 0], and at the angle [Math.PI * 2] of point 45, a
    binary64 number just below 2 pi, whose cosine rounds to 1 and whose sine,
    about -2.449e-16, is not zero. *)
Definition cosAtEnds (angle : float) : float := 1.
Definition sinAtEnds (angle : float) : float :=
  if angle =? 0 then 0 else -0x1.1a62633145c07p-52.

End Binary64.

(** ** Exact values *)

(** The real number that a finite binary64 number stands for. *)
Definition exactValue (f : float) : R :=
  match Prim2SF f with
  | S754_finite s m e =>
      if (0 <=? e)%Z then IZR (cond_Zopp s (Zpos m) * 2 ^ e)
      else IZR (cond_Zopp s (Zpos m)) / IZR (2 ^ (- e))
  | _ => 0
  end.

Definition exactPoint (p : Binary64.Point) : Point :=
  mkPoint (exactValue (Binary64.x p)) (exactValue (Binary64.y p)).

(** * Properties *)

(** ** Comparisons *)

Lemma Rltb_true (a b : R) : Rltb a b = true <-> a < b.
Proof. unfold Rltb; destruct (Rlt_dec a b); split; intros; try easy; lra. Qed.

Lemma Rltb_false (a b : R) : Rltb a b = false <-> b <= a.
Proof. unfold Rltb; destruct (Rlt_dec a b); split; intros; try easy; lra. Qed.

Lemma Rgtb_true (a b : R) : Rgtb a b = true <-> a > b.
Proof. unfold Rgtb; rewrite Rltb_true; lra. Qed.

Lemma Rgtb_false (a b : R) : Rgtb a b = false <-> a <= b.
Proof. unfold Rgtb; rewrite Rltb_false; lra. Qed.

Lemma Reqb_true (a b : R) : Reqb a b = true <-> a = b.
Proof. unfold Reqb; destruct (Req_dec_T a b); split; intros; easy. Qed.

Lemma Reqb_false (a b : R) : Reqb a b = false <-> a <> b.
Proof. unfold Reqb; destruct (Req_dec_T a b); split; intros; easy. Qed.

(** ** Distance *)

Lemma sq_sum_nonneg (a b : R) : 0 <= a ^ 2 + b ^ 2.
Proof. nra. Qed.

Lemma distance_nonneg (p q : Point) : 0 <= distance p q.
Proof. apply sqrt_pos. Qed.

Lemma distance_sq (p q : Point) :
  distance p q ^ 2 = (x q - x p) ^ 2 + (y q - y p) ^ 2.
Proof.
  unfold distance. rewrite <- Rsqr_pow2, Rsqr_sqrt; [reflexivity | apply sq_sum_nonneg].
Qed.

Lemma Point_eq (p q : Point) : x p = x q -> y p = y q -> p = q.
Proof. destruct p, q; simpl; intros; subst; reflexivity. Qed.

Lemma distance_refl (p : Point) : distance p p = 0.
Proof.
  unfold distance. replace ((x p - x p) ^ 2 + (y p - y p) ^ 2) with 0 by ring.
  apply sqrt_0.
Qed.

Lemma distance_zero (p q : Point) : distance p q = 0 -> p = q.
Proof.
  intros H. assert (Hs := distance_sq p q). rewrite H in Hs.
  assert (H0 : 0 = (x q - x p) * (x q - x p) + (y q - y p) * (y q - y p)).
  { transitivity ((x q - x p) ^ 2 + (y q - y p) ^ 2); [rewrite <- Hs|]; ring. }
  assert (Ha : (x q - x p) * (x q - x p) = 0).
  { assert (A := Rle_0_sqr (x q - x p)). assert (B := Rle_0_sqr (y q - y p)).
    unfold Rsqr in A, B. lra. }
  assert (Hb : (y q - y p) * (y q - y p) = 0) by lra.
  apply Rmult_integral in Ha, Hb.
  apply Point_eq; destruct Ha, Hb; lra.
Qed.

Lemma distance_sq_zero (v w : Point) : distance v w ^ 2 = 0 <-> v = w.
Proof.
  split.
  - intros H. apply distance_zero. nra.
  - intros ->. rewrite distance_refl. ring.
Qed.

Lemma distance_le (p a b : Point) :
  (x a - x p) ^ 2 + (y a - y p) ^ 2 <= (x b - x p) ^ 2 + (y b - y p) ^ 2 ->
  distance p a <= distance p b.
Proof. intros H. unfold distance. apply sqrt_le_1_alt. exact H. Qed.

Lemma pointAt_0 (v w : Point) : pointAt v w 0 = v.
Proof. apply Point_eq; simpl; ring. Qed.

Lemma pointAt_1 (v w : Point) : pointAt v w 1 = w.
Proof. apply Point_eq; simpl; ring. Qed.

Lemma pointAt_same (v : Point) (t : R) : pointAt v v t = v.
Proof. apply Point_eq; simpl; ring. Qed.

(** ** Point-to-segment distance *)

Lemma clamp01_range (t : R) : 0 <= clamp01 t <= 1.
Proof.
  unfold clamp01, Rmax, Rmin.
  destruct (Rle_dec 1 t); destruct (Rle_dec 0 _); lra.
Qed.

Lemma clamp01_cases (t : R) :
  (t < 0 /\ clamp01 t = 0) \/ (0 <= t <= 1 /\ clamp01 t = t) \/ (1 < t /\ clamp01 t = 1).
Proof.
  unfold clamp01, Rmax, Rmin.
  destruct (Rle_dec 1 t); destruct (Rle_dec 0 _); lra.
Qed.

Lemma distToSegment_degenerate (p v : Point) : distToSegment p v v = distance p v.
Proof.
  unfold distToSegment.
  destruct (Reqb (distance v v ^ 2) 0) eqn:E; [reflexivity|].
  apply Reqb_false in E. exfalso. apply E. apply distance_sq_zero. reflexivity.
Qed.

Lemma distToSegment_proper (p v w : Point) :
  v <> w ->
  distToSegment p v w = distance p (pointAt v w (clamp01 (projParam p v w))).
Proof.
  intros Hvw. unfold distToSegment.
  destruct (Reqb (distance v w ^ 2) 0) eqn:E; [|reflexivity].
  apply Reqb_true in E. apply distance_sq_zero in E. contradiction.
Qed.

(** The squared distance from [p] to the point at parameter [s], against the
    one at parameter [t]. *)
Lemma sqdist_pointAt_diff (p v w : Point) (s t : R) :
  ((x (pointAt v w s) - x p) ^ 2 + (y (pointAt v w s) - y p) ^ 2)
  - ((x (pointAt v w t) - x p) ^ 2 + (y (pointAt v w t) - y p) ^ 2)
  = (s - t) * ((s + t) * (distance v w ^ 2)
               - 2 * ((x p - x v) * (x w - x v) + (y p - y v) * (y w - y v))).
Proof. rewrite distance_sq. simpl. ring. Qed.

Lemma projParam_dot (p v w : Point) :
  v <> w ->
  (x p - x v) * (x w - x v) + (y p - y v) * (y w - y v)
  = projParam p v w * distance v w ^ 2.
Proof.
  intros Hvw. unfold projParam. field.
  intros H. apply Hvw. apply distance_zero. exact H.
Qed.

Lemma distance_sq_pos (v w : Point) : v <> w -> 0 < distance v w ^ 2.
Proof.
  intros Hvw.
  assert (distance v w ^ 2 <> 0) by (intros H; apply Hvw, distance_sq_zero, H).
  assert (0 <= distance v w ^ 2) by (rewrite distance_sq; apply sq_sum_nonneg).
  lra.
Qed.

(** The clamped projection is the nearest point of the segment. *)
Lemma clamped_projection_nearest (p v w : Point) (s : R) :
  v <> w -> 0 <= s <= 1 ->
  distance p (pointAt v w (clamp01 (projParam p v w))) <= distance p (pointAt v w s).
Proof.
  intros Hvw Hs. apply distance_le.
  assert (Hd := sqdist_pointAt_diff p v w s (clamp01 (projParam p v w))).
  rewrite (projParam_dot p v w Hvw) in Hd.
  assert (HL := distance_sq_pos v w Hvw).
  set (L := distance v w ^ 2) in *. set (t0 := projParam p v w) in *.
  assert (0 <= (s - clamp01 t0) * ((s + clamp01 t0) - 2 * t0)).
  { destruct Hs as [Hs0 Hs1].
    destruct (clamp01_cases t0) as [[H1 ->]|[[H1 ->]|[H1 ->]]].
    - apply Rmult_le_pos; lra.
    - replace ((s - t0) * (s + t0 - 2 * t0)) with ((s - t0) ^ 2) by ring.
      apply pow2_ge_0.
    - replace ((s - 1) * (s + 1 - 2 * t0)) with ((1 - s) * (2 * t0 - 1 - s)) by ring.
      apply Rmult_le_pos; lra. }
  replace ((s - clamp01 t0) * ((s + clamp01 t0) * L - 2 * (t0 * L)))
    with (L * ((s - clamp01 t0) * (s + clamp01 t0 - 2 * t0))) in Hd by ring.
  assert (0 <= L * ((s - clamp01 t0) * (s + clamp01 t0 - 2 * t0))).
  { apply Rmult_le_pos; lra. }
  lra.
Qed.

Lemma distToSegment_le_point (p v w : Point) (s : R) :
  0 <= s <= 1 -> distToSegment p v w <= distance p (pointAt v w s).
Proof.
  intros Hs. destruct (Req_dec_T (distance v w ^ 2) 0) as [E|E].
  - apply distance_sq_zero in E. subst w.
    rewrite distToSegment_degenerate, pointAt_same. lra.
  - assert (v <> w) by (intros ->; apply E, distance_sq_zero; reflexivity).
    rewrite distToSegment_proper by assumption.
    apply clamped_projection_nearest; assumption.
Qed.

Lemma distToSegment_attained (p v w : Point) :
  exists t, 0 <= t <= 1 /\ distToSegment p v w = distance p (pointAt v w t).
Proof.
  destruct (Req_dec_T (distance v w ^ 2) 0) as [E|E].
  - apply distance_sq_zero in E. subst w. exists 0. split; [lra|].
    rewrite distToSegment_degenerate, pointAt_same. reflexivity.
  - assert (v <> w) by (intros ->; apply E, distance_sq_zero; reflexivity).
    exists (clamp01 (projParam p v w)). split; [apply clamp01_range|].
    apply distToSegment_proper; assumption.
Qed.

Lemma distToSegment_nonneg (p v w : Point) : 0 <= distToSegment p v w.
Proof.
  destruct (distToSegment_attained p v w) as [t [_ ->]]. apply distance_nonneg.
Qed.

Lemma distToSegment_le_first (p v w : Point) : distToSegment p v w <= distance p v.
Proof.
  rewrite <- (pointAt_0 v w) at 2. apply distToSegment_le_point. lra.
Qed.

Lemma distToSegment_le_last (p v w : Point) : distToSegment p v w <= distance p w.
Proof.
  rewrite <- (pointAt_1 v w) at 2. apply distToSegment_le_point. lra.
Qed.

(** The value of [distToSegment] is the least distance from [p] to a point of
    the closed segment from [v] to [w]. *)
Lemma distToSegment_min_distance_exact (p v w : Point) :
  (exists t, 0 <= t <= 1 /\ distToSegment p v w = distance p (pointAt v w t)) /\
  (forall t, 0 <= t <= 1 -> distToSegment p v w <= distance p (pointAt v w t)) /\
  (v = w -> distToSegment p v w = distance p v) /\
  (v <> w -> projParam p v w < 0 ->
     distToSegment p v w = distance p v /\ distance p v <= distance p w) /\
  (v <> w -> 1 < projParam p v w ->
     distToSegment p v w = distance p w /\ distance p w <= distance p v).
Proof.
  split; [apply distToSegment_attained|].
  split; [intros t; apply distToSegment_le_point|].
  split; [intros ->; apply distToSegment_degenerate|].
  split; intros Hvw Ht.
  - assert (E : distToSegment p v w = distance p v).
    { rewrite distToSegment_proper by assumption.
      destruct (clamp01_cases (projParam p v w)) as [[_ ->]|[[H1 _]|[H1 _]]]; try lra.
      rewrite pointAt_0. reflexivity. }
    split; [exact E|]. rewrite <- E. apply distToSegment_le_last.
  - assert (E : distToSegment p v w = distance p w).
    { rewrite distToSegment_proper by assumption.
      destruct (clamp01_cases (projParam p v w)) as [[H1 _]|[[H1 _]|[_ ->]]]; try lra.
      rewrite pointAt_1. reflexivity. }
    split; [exact E|]. rewrite <- E. apply distToSegment_le_first.
Qed.

(** ** The scan for the farthest point *)

Section Scan.
Variable pts : list Point.
Variable endIdx : nat.

Local Abbreviation scanD := (scanDist pts endIdx).

Lemma scanStep_cases (st : R * nat) (i : nat) :
  (fst st < scanD i /\ scanStep pts endIdx st i = (scanD i, i)) \/
  (scanD i <= fst st /\ scanStep pts endIdx st i = st).
Proof.
  unfold scanStep. fold (scanDist pts endIdx i).
  destruct (Rgtb (scanD i) (fst st)) eqn:E.
  - apply Rgtb_true in E. left. split; [lra | reflexivity].
  - apply Rgtb_false in E. right. split; [lra | reflexivity].
Qed.

(** Invariant of the loop over the indices [a, a + n). *)
Lemma scan_from (n a : nat) (st : R * nat) :
  let st' := fold_left (scanStep pts endIdx) (seq a n) st in
  fst st <= fst st' /\
  (forall i, (a <= i < a + n)%nat -> scanD i <= fst st') /\
  (st' = st \/
   ((a <= snd st' < a + n)%nat /\ fst st' = scanD (snd st') /\
    fst st < fst st' /\
    forall i, (a <= i < snd st')%nat -> scanD i < fst st')).
Proof.
  revert a st. induction n as [|n IH]; intros a st; simpl.
  - split; [lra|]. split; [intros i Hi; lia | left; reflexivity].
  - specialize (IH (S a) (scanStep pts endIdx st a)).
    simpl in IH. destruct IH as (Hle & Hall & Hnew).
    destruct (scanStep_cases st a) as [[Hlt E]|[Hge E]]; rewrite E in *; simpl in *.
    + split; [lra|]. split.
      * intros i Hi. destruct (Nat.eq_dec i a) as [->|Hne]; [exact Hle|].
        apply Hall. lia.
      * right. destruct Hnew as [-> | (Hr & Hd & Hl & Hfirst)]; simpl.
        -- split; [lia|]. split; [reflexivity|]. split; [lra|]. intros i Hi. lia.
        -- split; [lia|]. split; [exact Hd|]. split; [lra|]. intros i Hi.
           destruct (Nat.eq_dec i a) as [->|Hne]; [lra|]. apply Hfirst. lia.
    + split; [exact Hle|]. split.
      * intros i Hi. destruct (Nat.eq_dec i a) as [->|Hne]; [lra|].
        apply Hall. lia.
      * destruct Hnew as [-> | (Hr & Hd & Hl & Hfirst)]; [left; reflexivity|].
        right. split; [lia|]. split; [exact Hd|]. split; [lra|]. intros i Hi.
        destruct (Nat.eq_dec i a) as [->|Hne]; [lra|]. apply Hfirst. lia.
Qed.

(** What the scan returns: either nothing lies off the segment, or the
    first index at which the largest distance is reached. *)
Lemma scan_spec :
  let st := scan pts endIdx in
  (forall i, (1 <= i < endIdx)%nat -> scanD i <= fst st) /\
  ((st = (0, 0%nat)) \/
   ((1 <= snd st < endIdx)%nat /\ fst st = scanD (snd st) /\ 0 < fst st /\
    forall i, (1 <= i < snd st)%nat -> scanD i < fst st)).
Proof.
  unfold scan. destruct (scan_from (endIdx - 1) 1 (0, 0%nat)) as (Hle & Hall & Hnew).
  simpl in *. split.
  - intros i Hi. apply Hall. lia.
  - destruct Hnew as [E | (Hr & Hd & Hl & Hfirst)]; [left; exact E|].
    right. split; [lia|]. split; [exact Hd|]. split; [exact Hl|]. exact Hfirst.
Qed.

(** The scan finds [k] when [k] is the first index of largest distance. *)
Lemma scan_argmax (k : nat) :
  (1 <= k < endIdx)%nat -> 0 < scanD k ->
  (forall i, (1 <= i < k)%nat -> scanD i < scanD k) ->
  (forall i, (k < i < endIdx)%nat -> scanD i <= scanD k) ->
  scan pts endIdx = (scanD k, k).
Proof.
  intros Hk Hpos Hbefore Hafter.
  destruct scan_spec as (Hall & [E | (Hr & Hd & Hl & Hfirst)]).
  - specialize (Hall k Hk). rewrite E in Hall. simpl in Hall. lra.
  - destruct (scan pts endIdx) as [dmax idx]; simpl in *.
    assert (idx = k).
    { destruct (Nat.lt_trichotomy idx k) as [Hlt|[Heq|Hgt]]; [|exact Heq|].
      - specialize (Hbefore idx (conj (proj1 Hr) Hlt)).
        specialize (Hall k Hk). lra.
      - specialize (Hfirst k (conj (proj1 Hk) Hgt)).
        specialize (Hafter idx (conj Hgt (proj2 Hr))). lra. }
    subst idx. rewrite Hd. reflexivity.
Qed.

(** The scan finds nothing when no point lies off the segment. *)
Lemma scan_flat :
  (forall i, (1 <= i < endIdx)%nat -> scanD i <= 0) ->
  scan pts endIdx = (0, 0%nat).
Proof.
  intros H. destruct scan_spec as (_ & [E | (Hr & Hd & Hl & _)]); [exact E|].
  specialize (H _ Hr). lra.
Qed.
End Scan.

(** ** Unfolding [simplifyPoints] *)

Lemma simplifyPoints_short (fuel : nat) (pts : list Point) (eps : R) :
  (length pts < 3)%nat -> simplifyPoints (S fuel) pts eps = Some pts.
Proof.
  intros H. simpl. apply Nat.ltb_lt in H. rewrite H. reflexivity.
Qed.

Lemma simplifyPoints_collapse (fuel : nat) (pts : list Point) (eps : R) :
  (3 <= length pts)%nat ->
  fst (scan pts (length pts - 1)) <= eps ->
  simplifyPoints (S fuel) pts eps
  = Some [nth 0 pts origin; nth (length pts - 1) pts origin].
Proof.
  intros Hlen Hd. simpl.
  assert (E : (length pts <? 3)%nat = false) by (apply Nat.ltb_ge; lia).
  rewrite E. destruct (scan pts (length pts - 1)) as [dmax idx]; simpl in *.
  apply Rgtb_false in Hd. rewrite Hd. reflexivity.
Qed.

Lemma simplifyPoints_split (fuel : nat) (pts : list Point) (eps : R) :
  (3 <= length pts)%nat ->
  fst (scan pts (length pts - 1)) > eps ->
  simplifyPoints (S fuel) pts eps
  = match simplifyPoints fuel (firstn (snd (scan pts (length pts - 1)) + 1) pts) eps with
    | None => None
    | Some res1 =>
        match simplifyPoints fuel (skipn (snd (scan pts (length pts - 1))) pts) eps with
        | None => None
        | Some res2 => Some (removelast res1 ++ res2)
        end
    end.
Proof.
  intros Hlen Hd. simpl.
  assert (E : (length pts <? 3)%nat = false) by (apply Nat.ltb_ge; lia).
  rewrite E. destruct (scan pts (length pts - 1)) as [dmax idx]; simpl in *.
  apply Rgtb_true in Hd. rewrite Hd. reflexivity.
Qed.

(** Induction on the calls of [simplifyPoints] that return. *)

Lemma simplifyPoints_ind (eps : R) (P : list Point -> list Point -> Prop) :
  (forall pts, (length pts < 3)%nat -> P pts pts) ->
  (forall pts, (3 <= length pts)%nat ->
     fst (scan pts (length pts - 1)) <= eps ->
     P pts [nth 0 pts origin; nth (length pts - 1) pts origin]) ->
  (forall pts res1 res2, (3 <= length pts)%nat ->
     fst (scan pts (length pts - 1)) > eps ->
     returns eps (firstn (snd (scan pts (length pts - 1)) + 1) pts) res1 ->
     returns eps (skipn (snd (scan pts (length pts - 1))) pts) res2 ->
     P (firstn (snd (scan pts (length pts - 1)) + 1) pts) res1 ->
     P (skipn (snd (scan pts (length pts - 1))) pts) res2 ->
     P pts (removelast res1 ++ res2)) ->
  forall fuel pts out, simplifyPoints fuel pts eps = Some out -> P pts out.
Proof.
  intros Hshort Hflat Hsplit fuel.
  induction fuel as [|fuel IH]; intros pts out H; [discriminate|].
  destruct (Nat.lt_ge_cases (length pts) 3) as [Hlen|Hlen].
  - rewrite simplifyPoints_short in H by exact Hlen.
    injection H as <-. apply Hshort; exact Hlen.
  - destruct (Rle_lt_dec (fst (scan pts (length pts - 1))) eps) as [Hd|Hd].
    + rewrite simplifyPoints_collapse in H by assumption.
      injection H as <-. apply Hflat; assumption.
    + rewrite simplifyPoints_split in H by (try assumption; lra).
      destruct (simplifyPoints fuel (firstn _ pts) eps) as [res1|] eqn:E1; [|discriminate].
      destruct (simplifyPoints fuel (skipn _ pts) eps) as [res2|] eqn:E2; [|discriminate].
      injection H as <-.
      apply Hsplit; auto; try (eexists; eassumption).
Qed.

(** Where the scan can point: inside the array, and strictly inside as soon
    as some point lies off the segment. *)
Lemma scan_index_range (pts : list Point) :
  (3 <= length pts)%nat ->
  (snd (scan pts (length pts - 1)) < length pts - 1)%nat.
Proof.
  intros Hlen.
  destruct (scan_spec pts (length pts - 1)) as (_ & [E | (Hr & _)]).
  - rewrite E. simpl. lia.
  - lia.
Qed.

Lemma scan_index_inner (pts : list Point) :
  0 < fst (scan pts (length pts - 1)) ->
  (1 <= snd (scan pts (length pts - 1)) < length pts - 1)%nat.
Proof.
  intros Hpos.
  destruct (scan_spec pts (length pts - 1)) as (_ & [E | (Hr & _)]).
  - rewrite E in Hpos. simpl in Hpos. lra.
  - exact Hr.
Qed.

(** ** Termination of [simplifyPoints] for a tolerance that is not negative *)

Lemma simplifyPoints_returns (eps : R) :
  0 <= eps ->
  forall fuel pts, (length pts < fuel)%nat ->
  exists out, simplifyPoints fuel pts eps = Some out.
Proof.
  intros Heps fuel. induction fuel as [|fuel IH]; intros pts Hf; [lia|].
  destruct (Nat.lt_ge_cases (length pts) 3) as [Hlen|Hlen].
  - exists pts. apply simplifyPoints_short. exact Hlen.
  - destruct (Rle_lt_dec (fst (scan pts (length pts - 1))) eps) as [Hd|Hd].
    + eexists. apply simplifyPoints_collapse; assumption.
    + rewrite simplifyPoints_split by (try assumption; lra).
      assert (Hr : (1 <= snd (scan pts (length pts - 1)) < length pts - 1)%nat).
      { apply scan_index_inner. lra. }
      destruct (IH (firstn (snd (scan pts (length pts - 1)) + 1) pts)) as [res1 ->].
      { rewrite length_firstn. lia. }
      destruct (IH (skipn (snd (scan pts (length pts - 1))) pts)) as [res2 ->].
      { rewrite length_skipn. lia. }
      eexists. reflexivity.
Qed.

(** More fuel does not change a result. *)
Lemma simplifyPoints_fuel_mono (eps : R) (fuel : nat) :
  forall pts out fuel', simplifyPoints fuel pts eps = Some out ->
  (fuel <= fuel')%nat -> simplifyPoints fuel' pts eps = Some out.
Proof.
  induction fuel as [|fuel IH]; intros pts out fuel' H Hle; [discriminate|].
  destruct fuel' as [|fuel']; [lia|].
  destruct (Nat.lt_ge_cases (length pts) 3) as [Hlen|Hlen].
  - rewrite simplifyPoints_short in * by exact Hlen. exact H.
  - destruct (Rle_lt_dec (fst (scan pts (length pts - 1))) eps) as [Hd|Hd].
    + rewrite simplifyPoints_collapse in * by assumption. exact H.
    + rewrite simplifyPoints_split in * by (try assumption; lra).
      destruct (simplifyPoints fuel (firstn _ pts) eps) as [res1|] eqn:E1; [|discriminate].
      destruct (simplifyPoints fuel (skipn _ pts) eps) as [res2|] eqn:E2; [|discriminate].
      rewrite (IH _ _ fuel' E1), (IH _ _ fuel' E2) by lia. exact H.
Qed.

(** ** The output of [simplifyPoints] keeps the two ends *)

Lemma two_points_ends (pts : list Point) :
  length pts = 2%nat -> pts = nth 0 pts origin :: [] ++ [nth (length pts - 1) pts origin].
Proof.
  destruct pts as [|a [|b [|c r]]]; simpl; intros H; try discriminate. reflexivity.
Qed.

Lemma simplifyPoints_keepsEnds (eps : R) (fuel : nat) (pts out : list Point) :
  simplifyPoints fuel pts eps = Some out -> keepsEnds pts out.
Proof.
  revert fuel pts out. apply simplifyPoints_ind.
  - intros pts Hlen. split; [reflexivity|]. intros H2. exists [].
    apply two_points_ends. lia.
  - intros pts Hlen _. split; [lia|]. intros _. exists []. reflexivity.
  - intros pts res1 res2 Hlen Hd _ _ [H1s H1] [H2s H2].
    assert (Hidx := scan_index_range pts Hlen).
    set (idx := snd (scan pts (length pts - 1))) in *.
    split; [lia|]. intros _.
    assert (L2 : length (skipn idx pts) = (length pts - idx)%nat) by apply length_skipn.
    destruct H2 as [mid2 E2]; [lia|].
    rewrite nth_skipn, L2, Nat.add_0_r in E2. rewrite nth_skipn in E2.
    replace (idx + (length pts - idx - 1))%nat with (length pts - 1)%nat in E2 by lia.
    assert (L1 : length (firstn (idx + 1) pts) = (idx + 1)%nat)
      by (rewrite length_firstn; lia).
    destruct (Nat.eq_dec idx 0) as [Z|NZ].
    + rewrite H1s by lia. rewrite Z in *. simpl in *.
      destruct pts as [|a r]; [simpl in Hlen; lia|]. simpl.
      exists mid2. exact E2.
    + destruct H1 as [mid1 E1]; [lia|].
      rewrite L1 in E1. rewrite !nth_firstn in E1.
      replace (0 <? idx + 1)%nat with true in E1 by (symmetry; apply Nat.ltb_lt; lia).
      replace (idx + 1 - 1 <? idx + 1)%nat with true in E1
        by (symmetry; apply Nat.ltb_lt; lia).
      rewrite E1, E2, app_comm_cons, removelast_last.
      exists (mid1 ++ nth idx pts origin :: mid2).
      replace (idx + 1 - 1)%nat with idx by lia.
      simpl. rewrite <- app_assoc. reflexivity.
Qed.

Lemma last_nth {A : Type} (l : list A) (d : A) : last l d = nth (length l - 1) l d.
Proof.
  induction l as [|a [|b r] IH]; try reflexivity.
  change (last (a :: b :: r) d) with (last (b :: r) d). rewrite IH.
  simpl. rewrite Nat.sub_0_r. reflexivity.
Qed.

Lemma keepsEnds_hd_last (pts out : list Point) :
  keepsEnds pts out ->
  forall d, hd d out = hd d pts /\ last out d = last pts d.
Proof.
  intros [Hs Hl] d. destruct (Nat.lt_ge_cases (length pts) 2) as [H|H].
  - rewrite (Hs H). split; reflexivity.
  - destruct (Hl H) as [mid ->]. split.
    + destruct pts; [simpl in H; lia | reflexivity].
    + rewrite app_comm_cons, last_last, (last_nth pts d).
      apply nth_indep. lia.
Qed.

(** ** The output of [simplifyPoints] is a subsequence of its input *)

Lemma subseq_refl {A : Type} (l : list A) : subseq l l.
Proof. induction l; [apply subseq_nil | apply subseq_keep; assumption]. Qed.

Lemma subseq_nil_l {A : Type} (l : list A) : subseq [] l.
Proof. induction l; [apply subseq_nil | apply subseq_skip; assumption]. Qed.

Lemma subseq_nil_r {A : Type} (l : list A) : subseq l [] -> l = [].
Proof. intros H. inversion H. reflexivity. Qed.

Lemma subseq_app {A : Type} (l1 l2 m1 m2 : list A) :
  subseq l1 l2 -> subseq m1 m2 -> subseq (l1 ++ m1) (l2 ++ m2).
Proof.
  intros H1 H2. induction H1; simpl;
    [assumption | apply subseq_skip; assumption | apply subseq_keep; assumption].
Qed.

Lemma subseq_In {A : Type} (l1 l2 : list A) (a : A) :
  subseq l1 l2 -> In a l1 -> In a l2.
Proof.
  intros H. induction H; simpl; intros Ha; auto.
  destruct Ha as [->|Ha]; auto.
Qed.

Lemma subseq_removelast {A : Type} (l1 l2 : list A) :
  subseq l1 l2 -> subseq (removelast l1) (removelast l2).
Proof.
  intros H. induction H as [|a l1 l2 H IH|a l1 l2 H IH].
  - constructor.
  - destruct l2 as [|b l2].
    + apply subseq_nil_r in H. subst l1. constructor.
    + change (removelast (a :: b :: l2)) with (a :: removelast (b :: l2)).
      constructor. exact IH.
  - destruct l1 as [|c l1].
    + apply subseq_nil_l.
    + destruct l2 as [|b l2]; [inversion H|].
      change (removelast (a :: c :: l1)) with (a :: removelast (c :: l1)).
      change (removelast (a :: b :: l2)) with (a :: removelast (b :: l2)).
      apply subseq_keep. exact IH.
Qed.

Lemma nth_firstn_lt (i n : nat) (l : list Point) :
  (i < n)%nat -> nth i (firstn n l) origin = nth i l origin.
Proof.
  intros H. rewrite nth_firstn. apply Nat.ltb_lt in H. rewrite H. reflexivity.
Qed.

Lemma firstn_snoc (pts : list Point) (k : nat) :
  (k < length pts)%nat -> firstn (k + 1) pts = firstn k pts ++ [nth k pts origin].
Proof.
  revert pts. induction k as [|k IH]; intros [|a r] H; simpl in *; try lia.
  - reflexivity.
  - f_equal. apply IH. lia.
Qed.

Lemma simplifyPoints_subseq (eps : R) (fuel : nat) (pts out : list Point) :
  simplifyPoints fuel pts eps = Some out -> subseq out pts.
Proof.
  revert fuel pts out. apply simplifyPoints_ind.
  - intros pts _. apply subseq_refl.
  - intros pts Hlen _.
    destruct pts as [|a r]; [simpl in Hlen; lia|].
    simpl length. replace (S (length r) - 1)%nat with (length r) by lia.
    simpl nth at 1. apply subseq_keep.
    assert (Hr : r <> []) by (intros ->; simpl in Hlen; lia).
    replace (nth (length r) (a :: r) origin) with (last r origin).
    + rewrite (app_removelast_last origin Hr) at 2.
      apply (subseq_app [] (removelast r) [last r origin] [last r origin]).
      * apply subseq_nil_l.
      * apply subseq_refl.
    + rewrite last_nth. destruct r; [contradiction|]. simpl. rewrite Nat.sub_0_r.
      reflexivity.
  - intros pts res1 res2 Hlen Hd _ _ H1 H2.
    assert (Hidx := scan_index_range pts Hlen).
    set (idx := snd (scan pts (length pts - 1))) in *.
    rewrite <- (firstn_skipn idx pts) at 1.
    apply subseq_app; [|exact H2].
    rewrite firstn_snoc in H1 by lia.
    apply subseq_removelast in H1. rewrite removelast_last in H1. exact H1.
Qed.

(** ** Evaluating distances at given points *)

Lemma clamp01_inside (t : R) : 0 <= t <= 1 -> clamp01 t = t.
Proof. intros H. destruct (clamp01_cases t) as [[? ?]|[[? ?]|[? ?]]]; lra. Qed.

Lemma distance_val (p q : Point) (d : R) :
  0 <= d -> (x q - x p) ^ 2 + (y q - y p) ^ 2 = d * d -> distance p q = d.
Proof. intros Hd E. unfold distance. rewrite E. apply sqrt_square. exact Hd. Qed.

Lemma projParam_val (p v w : Point) (t : R) :
  v <> w ->
  (x p - x v) * (x w - x v) + (y p - y v) * (y w - y v)
  = t * ((x w - x v) ^ 2 + (y w - y v) ^ 2) ->
  projParam p v w = t.
Proof.
  intros Hvw E. assert (H := projParam_dot p v w Hvw).
  assert (HL := distance_sq_pos v w Hvw).
  rewrite <- distance_sq in E. rewrite E in H.
  apply Rmult_eq_reg_r with (distance v w ^ 2); lra.
Qed.

(** The projection falls on the segment, at parameter [t]. *)
Lemma distToSegment_at (p v w : Point) (t q : R) :
  v <> w ->
  (x p - x v) * (x w - x v) + (y p - y v) * (y w - y v)
  = t * ((x w - x v) ^ 2 + (y w - y v) ^ 2) ->
  0 <= t <= 1 ->
  (x v + t * (x w - x v) - x p) ^ 2 + (y v + t * (y w - y v) - y p) ^ 2 = q ->
  distToSegment p v w = sqrt q.
Proof.
  intros Hvw Et Ht Eq. rewrite distToSegment_proper by exact Hvw.
  rewrite (projParam_val p v w t Hvw Et), clamp01_inside by exact Ht.
  unfold distance, pointAt. cbn [x y]. rewrite Eq. reflexivity.
Qed.

Lemma distToSegment_self_first (v w : Point) : distToSegment v v w = 0.
Proof.
  assert (H := distToSegment_le_first v v w). rewrite distance_refl in H.
  assert (H' := distToSegment_nonneg v v w). lra.
Qed.

Lemma distToSegment_self_last (v w : Point) : distToSegment w v w = 0.
Proof.
  assert (H := distToSegment_le_last w v w). rewrite distance_refl in H.
  assert (H' := distToSegment_nonneg w v w). lra.
Qed.


(** Distinct points given by their coordinates. *)
Ltac points_differ :=
  let H := fresh in intros H; injection H; intros; lra.

(** ** C6: the output is a subsequence that keeps both ends *)

(** C6, for tolerances that are not negative.  For every point sequence and every tolerance that is
    not negative, [simplifyPoints] returns (with any bound above the length of
    the input), and what it returns is a subsequence of the input whose first
    and last elements are the first and last input points. *)
Theorem simplifyPoints_subsequence_keeps_ends (pts : list Point) (eps : R) :
  0 <= eps ->
  exists out,
    (forall fuel, (length pts < fuel)%nat -> simplifyPoints fuel pts eps = Some out) /\
    subseq out pts /\
    (forall d, hd d out = hd d pts /\ last out d = last pts d).
Proof.
  intros Heps.
  destruct (simplifyPoints_returns eps Heps (S (length pts)) pts) as [out E]; [lia|].
  exists out. split; [|split].
  - intros fuel Hf. apply (simplifyPoints_fuel_mono eps (S (length pts))); [exact E | lia].
  - apply (simplifyPoints_subseq eps _ _ _ E).
  - apply keepsEnds_hd_last. apply (simplifyPoints_keepsEnds eps _ _ _ E).
Qed.

Lemma simplifyPoints_subsequence_keeps_ends_witness :
  0 <= 1 /\
  exists out,
    (forall fuel, (length [mkPoint 0 0; mkPoint 1 5; mkPoint 2 0] < fuel)%nat ->
       simplifyPoints fuel [mkPoint 0 0; mkPoint 1 5; mkPoint 2 0] 1 = Some out) /\
    subseq out [mkPoint 0 0; mkPoint 1 5; mkPoint 2 0] /\
    (forall d, hd d out = hd d [mkPoint 0 0; mkPoint 1 5; mkPoint 2 0] /\
               last out d = last [mkPoint 0 0; mkPoint 1 5; mkPoint 2 0] d).
Proof.
  split; [lra|].
  apply (simplifyPoints_subsequence_keeps_ends
           [mkPoint 0 0; mkPoint 1 5; mkPoint 2 0] 1).
  lra.
Defined.

Lemma collinear3_scan : scan collinear3 2 = (0, 0%nat).
Proof.
  apply scan_flat. intros i Hi. assert (i = 1%nat) by lia. subst i.
  unfold scanDist, collinear3. simpl nth.
  rewrite (distToSegment_at _ _ _ (1 / 2) 0); try (simpl; lra).
  - rewrite sqrt_0. lra.
  - points_differ.
Qed.

(** C6, counterexample: with tolerance [-1] the call on three collinear
    points calls itself on the same three points; it never returns. *)
Lemma simplifyPoints_negative_epsilon_no_output :
  ~ exists fuel out, simplifyPoints fuel collinear3 (-1) = Some out.
Proof.
  intros [fuel H]. induction fuel as [|fuel IH]; destruct H as [out H]; [discriminate|].
  rewrite simplifyPoints_split in H.
  - change (length collinear3 - 1)%nat with 2%nat in H.
    rewrite collinear3_scan in H. simpl snd in H.
    change (skipn 0 collinear3) with collinear3 in H.
    destruct (simplifyPoints fuel (firstn (0 + 1) collinear3) (-1)); [|discriminate].
    destruct (simplifyPoints fuel collinear3 (-1)) as [res2|] eqn:E2; [|discriminate].
    apply IH. exists res2. reflexivity.
  - simpl. lia.
  - change (length collinear3 - 1)%nat with 2%nat.
    rewrite collinear3_scan. simpl. lra.
Qed.

(** ** The eraser hit test *)

Lemma segmentCheck_existsb (point : Point) (pts : list Point) (radius : R) :
  segmentCheck point pts radius
  = existsb (fun s => Rltb (distToSegment point (fst s) (snd s)) radius) (segmentsOf pts).
Proof.
  induction pts as [|a [|b r] IH]; try reflexivity.
  change (segmentCheck point (a :: b :: r) radius)
    with (if Rltb (distToSegment point a b) radius then true
          else segmentCheck point (b :: r) radius).
  change (segmentsOf (a :: b :: r)) with ((a, b) :: segmentsOf (b :: r)).
  simpl existsb. rewrite IH.
  destruct (Rltb (distToSegment point a b) radius); reflexivity.
Qed.

Lemma segmentCheck_mono (point : Point) (pts : list Point) (r r' : R) :
  r <= r' -> segmentCheck point pts r = true -> segmentCheck point pts r' = true.
Proof.
  intros Hr. rewrite !segmentCheck_existsb, !existsb_exists.
  intros (s & Hs & Hd). exists s. split; [exact Hs|].
  apply Rltb_true in Hd. apply Rltb_true. lra.
Qed.

Lemma isPointNearPath_unfold (point : Point) (path : DrawingPath) (threshold : R) :
  isPointNearPath point path threshold
  = if (length (points path) <? 2)%nat then false
    else if outsideBox point (points path) threshold then false
    else segmentCheck point (points path) (threshold + width path / 2).
Proof. reflexivity. Qed.

Lemma outsideBox_false (point : Point) (pts : list Point) (t : R) :
  outsideBox point pts t = false <->
  (minOf (map x pts) - t <= x point <= maxOf (map x pts) + t /\
   minOf (map y pts) - t <= y point <= maxOf (map y pts) + t).
Proof.
  unfold outsideBox. rewrite !orb_false_iff, !Rltb_false, !Rgtb_false. tauto.
Qed.

(** C7.  The hit test is monotonic in the threshold: a stroke hit with
    threshold [t] is hit with every larger threshold [t']; the box of the
    filter grows with the threshold as the hit radius does. *)
Theorem isPointNearPath_monotonic (point : Point) (path : DrawingPath) (t t' : R) :
  t < t' ->
  isPointNearPath point path t = true ->
  isPointNearPath point path t' = true.
Proof.
  intros Ht. rewrite !isPointNearPath_unfold.
  destruct (length (points path) <? 2)%nat; [discriminate|].
  destruct (outsideBox point (points path) t) eqn:B; [discriminate|].
  apply outsideBox_false in B.
  assert (B' : outsideBox point (points path) t' = false)
    by (apply outsideBox_false; lra).
  rewrite B'. apply segmentCheck_mono. lra.
Qed.

Lemma penStroke_dist_5_3 :
  distToSegment (mkPoint 5 3) (mkPoint 0 0) (mkPoint 10 0) = 3.
Proof.
  rewrite (distToSegment_at _ _ _ (1 / 2) (3 * 3)); try (simpl; lra).
  - apply sqrt_square. lra.
  - points_differ.
Qed.

Lemma penStroke_dist_5_0 :
  distToSegment (mkPoint 5 0) (mkPoint 0 0) (mkPoint 10 0) = 0.
Proof.
  rewrite (distToSegment_at _ _ _ (1 / 2) 0); try (simpl; lra).
  - apply sqrt_0.
  - points_differ.
Qed.

Lemma penStroke_box (point : Point) (t : R) :
  outsideBox point (points penStroke) t = false <->
  (0 - t <= x point <= 10 + t /\ 0 - t <= y point <= 0 + t).
Proof.
  rewrite outsideBox_false. simpl.
  rewrite (Rmin_left 0 10), (Rmax_right 0 10), (Rmin_left 0 0), (Rmax_left 0 0) by lra.
  reflexivity.
Qed.

Lemma isPointNearPath_monotonic_witness :
  1 < 2 /\
  isPointNearPath (mkPoint 5 0) penStroke 1 = true /\
  isPointNearPath (mkPoint 5 0) penStroke 2 = true.
Proof.
  assert (H : isPointNearPath (mkPoint 5 0) penStroke 1 = true).
  { rewrite isPointNearPath_unfold.
    replace (outsideBox (mkPoint 5 0) (points penStroke) 1) with false
      by (symmetry; apply penStroke_box; simpl; lra).
    simpl. rewrite penStroke_dist_5_0.
    rewrite (proj2 (Rltb_true _ _)) by lra. reflexivity. }
  split; [lra|]. split; [exact H|].
  apply (isPointNearPath_monotonic (mkPoint 5 0) penStroke 1 2); [lra | exact H].
Defined.

(** C1.  The filter is not neutral: the box grows by [threshold] while the
    hit radius is [threshold + width / 2].  At threshold 1 the point (5, 3)
    is at distance 3 from the centre line of the stroke of width 12, below
    the hit radius 7; the test without the filter reports a hit, the filter
    rejects the point because it lies more than 1 above the box. *)
Theorem isPointNearPath_filter_rejects_hit :
  isPointNearPath_unfiltered (mkPoint 5 3) penStroke 1 = true /\
  isPointNearPath (mkPoint 5 3) penStroke 1 = false.
Proof.
  split.
  - unfold isPointNearPath_unfiltered. simpl.
    rewrite penStroke_dist_5_3.
    rewrite (proj2 (Rltb_true _ _)) by lra. reflexivity.
  - rewrite isPointNearPath_unfold.
    destruct (outsideBox (mkPoint 5 3) (points penStroke) 1) eqn:B; [reflexivity|].
    apply penStroke_box in B. simpl in B. lra.
Qed.

(** C10.  The hit test reads the point sequence and the width of the stroke
    and nothing else: strokes that agree on both get the same answer, whatever
    their colour, tool, opacity and shape flag. *)
Theorem isPointNearPath_reads_points_and_width
    (point : Point) (threshold : R) (path1 path2 : DrawingPath) :
  points path1 = points path2 ->
  width path1 = width path2 ->
  isPointNearPath point path1 threshold = isPointNearPath point path2 threshold.
Proof.
  intros Hp Hw. unfold isPointNearPath. rewrite Hp, Hw. reflexivity.
Qed.

Lemma isPointNearPath_reads_points_and_width_witness :
  isPointNearPath (mkPoint 5 3) penStroke 1
  = isPointNearPath (mkPoint 5 3)
      (mkDrawingPath [mkPoint 0 0; mkPoint 10 0] "#ff0000" 12 HIGHLIGHTER (1 / 2) (Some true)) 1.
Proof.
  apply (isPointNearPath_reads_points_and_width (mkPoint 5 3) 1 penStroke
           (mkDrawingPath [mkPoint 0 0; mkPoint 10 0] "#ff0000" 12 HIGHLIGHTER (1 / 2) (Some true)));
    reflexivity.
Defined.

(** ** Length of a stroke *)



(** ** Sums *)






(** ** Least and greatest element *)






(** ** The filter of the hit test *)

(** What the filter does preserve: it never adds a hit, and it removes none
    when the stroke has no width. *)
Lemma isPointNearPath_implies_unfiltered (point : Point) (path : DrawingPath) (t : R) :
  isPointNearPath point path t = true -> isPointNearPath_unfiltered point path t = true.
Proof.
  rewrite isPointNearPath_unfold. unfold isPointNearPath_unfiltered.
  destruct (length (points path) <? 2)%nat; [discriminate|].
  destruct (outsideBox point (points path) t); [discriminate|].
  rewrite segmentCheck_existsb. trivial.
Qed.

Lemma sq_bound (a b d : R) : 0 <= d -> d ^ 2 = a ^ 2 + b ^ 2 -> - d <= a <= d.
Proof.
  intros Hd E. assert (Hb : 0 <= b ^ 2) by nra.
  split.
  - destruct (Rle_lt_dec (- d) a) as [H|H]; [exact H|].
    assert (d * d < a * a) by nra. nra.
  - destruct (Rle_lt_dec a d) as [H|H]; [exact H|].
    assert (d * d < a * a) by nra. nra.
Qed.

Lemma distance_ge_dx (p q : Point) : - distance p q <= x q - x p <= distance p q.
Proof.
  apply (sq_bound _ (y q - y p)); [apply distance_nonneg | apply distance_sq].
Qed.

(** ** The second point of a simplified polyline *)


Lemma returns_at (eps : R) (pts out : list Point) (fuel : nat) :
  0 <= eps -> returns eps pts out -> (length pts < fuel)%nat ->
  simplifyPoints fuel pts eps = Some out.
Proof.
  intros Heps [f0 E0] Hf.
  destruct (simplifyPoints_returns eps Heps fuel pts Hf) as [out' E].
  assert (E1 := simplifyPoints_fuel_mono eps _ _ _ (Nat.max f0 fuel) E0 (Nat.le_max_l _ _)).
  assert (E2 := simplifyPoints_fuel_mono eps _ _ _ (Nat.max f0 fuel) E (Nat.le_max_r _ _)).
  rewrite E1 in E2. injection E2 as ->. exact E.
Qed.

(** ** The branches of [recognizeShape] *)


Lemma recognizeShape_few (fuel : nat) (pts : list Point) :
  (length pts < 10)%nat -> recognizeShape fuel pts = Returned None.
Proof.
  intros H. unfold recognizeShape. apply Nat.ltb_lt in H. rewrite H. reflexivity.
Qed.




(** ** The circle-or-polygon branch *)

Section Round.
Variable simplified : list Point.
Variable center : Point.
Variable n : Z.
Hypothesis n_def : n = (Z.of_nat (length simplified) - 1)%Z.
Hypothesis n_ge_5 : (5 <= n)%Z.

Local Abbreviation dists := (vertexDists simplified center n).








End Round.

(** ** C3: open strokes *)


(** ** C4: quadrilaterals *)


(** ** Running the simplification on given strokes *)

Lemma simplifyPoints_collapse_at (fuel : nat) (pts : list Point) (eps : R) :
  (3 <= length pts)%nat -> 0 <= eps ->
  (forall i, (1 <= i < length pts - 1)%nat -> scanDist pts (length pts - 1) i <= eps) ->
  simplifyPoints (S fuel) pts eps
  = Some [nth 0 pts origin; nth (length pts - 1) pts origin].
Proof.
  intros Hlen Heps Hall. apply simplifyPoints_collapse; [exact Hlen|].
  destruct (scan_spec pts (length pts - 1)) as (_ & [E | (Hr & Hd & _)]).
  - rewrite E. exact Heps.
  - rewrite Hd. apply Hall. exact Hr.
Qed.

Lemma simplifyPoints_split_at (fuel : nat) (pts : list Point) (eps : R) (k : nat)
    (res1 res2 : list Point) :
  (3 <= length pts)%nat -> 0 <= eps ->
  (1 <= k < length pts - 1)%nat ->
  scanDist pts (length pts - 1) k > eps ->
  (forall i, (1 <= i < k)%nat ->
     scanDist pts (length pts - 1) i < scanDist pts (length pts - 1) k) ->
  (forall i, (k < i < length pts - 1)%nat ->
     scanDist pts (length pts - 1) i <= scanDist pts (length pts - 1) k) ->
  simplifyPoints fuel (firstn (k + 1) pts) eps = Some res1 ->
  simplifyPoints fuel (skipn k pts) eps = Some res2 ->
  simplifyPoints (S fuel) pts eps = Some (removelast res1 ++ res2).
Proof.
  intros Hlen Heps Hk Hd Hbefore Hafter E1 E2.
  assert (Es : scan pts (length pts - 1) = (scanDist pts (length pts - 1) k, k))
    by (apply scan_argmax; try assumption; lra).
  rewrite simplifyPoints_split; [|exact Hlen | rewrite Es; exact Hd].
  rewrite Es. simpl snd. rewrite E1, E2. reflexivity.
Qed.

Lemma distToSegment_val (p v w : Point) (t d : R) :
  v <> w ->
  (x p - x v) * (x w - x v) + (y p - y v) * (y w - y v)
  = t * ((x w - x v) ^ 2 + (y w - y v) ^ 2) ->
  0 <= t <= 1 -> 0 <= d ->
  (x v + t * (x w - x v) - x p) ^ 2 + (y v + t * (y w - y v) - y p) ^ 2 = d * d ->
  distToSegment p v w = d.
Proof.
  intros Hvw Et Ht Hd Eq.
  rewrite (distToSegment_at p v w t (d * d) Hvw Et Ht Eq). apply sqrt_square. exact Hd.
Qed.





(** Enumerates the indices of a bounded range. *)
Ltac index_cases i := do 16 (try (first [ lia | destruct i as [|i] ])).


(** ** A straight stroke *)





(** ** A rectangular stroke *)




(** Goals about the distances of a scan over a given stroke. *)
Ltac scan_at := cbn [length Nat.sub]; unfold scanDist; cbn [nth].
Ltac scan_all i :=
  let Hi := fresh "Hi" in
  intros i Hi; cbn [length Nat.sub] in *; unfold scanDist;
  index_cases i; cbn [nth].

Lemma rect_first_side (fuel : nat) :
  simplifyPoints (S fuel)
    [mkPoint 0 0; mkPoint 0 0; mkPoint 0 0; mkPoint 0 0; mkPoint 0 0; mkPoint 0 0;
     mkPoint 4 0] (1 / 4)
  = Some [mkPoint 0 0; mkPoint 4 0].
Proof.
  apply simplifyPoints_collapse_at; [simpl; lia | lra |].
  scan_all i; rewrite distToSegment_self_first; lra.
Qed.

Lemma rect_corner_B :
  distToSegment (mkPoint 4 0) (mkPoint 0 0) (mkPoint 4 3) = 12 / 5.
Proof.
  apply (distToSegment_val _ _ _ (16 / 25)); try (simpl; lra). points_differ.
Qed.

Lemma rect_corner_D :
  distToSegment (mkPoint 0 3) (mkPoint 4 3) (mkPoint 0 0) = 12 / 5.
Proof.
  apply (distToSegment_val _ _ _ (16 / 25)); try (simpl; lra). points_differ.
Qed.

Lemma rect_first_half (fuel : nat) :
  simplifyPoints (S (S fuel))
    [mkPoint 0 0; mkPoint 0 0; mkPoint 0 0; mkPoint 0 0; mkPoint 0 0; mkPoint 0 0;
     mkPoint 4 0; mkPoint 4 3] (1 / 4)
  = Some [mkPoint 0 0; mkPoint 4 0; mkPoint 4 3].
Proof.
  apply (simplifyPoints_split_at _ _ _ 6 [mkPoint 0 0; mkPoint 4 0] [mkPoint 4 0; mkPoint 4 3]);
    [simpl; lia | lra | simpl; lia | | | | | ].
  - scan_at. rewrite rect_corner_B. lra.
  - scan_all i; rewrite rect_corner_B, distToSegment_self_first; lra.
  - scan_all i.
  - apply rect_first_side.
  - apply simplifyPoints_short. simpl. lia.
Qed.

Lemma rect_second_half (fuel : nat) :
  simplifyPoints (S (S fuel)) [mkPoint 4 3; mkPoint 0 3; mkPoint 0 0] (1 / 4)
  = Some [mkPoint 4 3; mkPoint 0 3; mkPoint 0 0].
Proof.
  apply (simplifyPoints_split_at _ _ _ 1 [mkPoint 4 3; mkPoint 0 3] [mkPoint 0 3; mkPoint 0 0]);
    [simpl; lia | lra | simpl; lia | | | | | ].
  - scan_at. rewrite rect_corner_D. lra.
  - scan_all i.
  - scan_all i.
  - apply simplifyPoints_short. simpl. lia.
  - apply simplifyPoints_short. simpl. lia.
Qed.

Lemma rectStroke_simplified (fuel : nat) :
  simplifyPoints (S (S (S fuel))) rectStroke (1 / 4)
  = Some [mkPoint 0 0; mkPoint 4 0; mkPoint 4 3; mkPoint 0 3; mkPoint 0 0].
Proof.
  assert (DB := distance_val (mkPoint 4 0) (mkPoint 0 0) 4).
  assert (DC := distance_val (mkPoint 4 3) (mkPoint 0 0) 5).
  assert (DD := distance_val (mkPoint 0 3) (mkPoint 0 0) 3).
  simpl in DB, DC, DD.
  apply (simplifyPoints_split_at _ _ _ 7
           [mkPoint 0 0; mkPoint 4 0; mkPoint 4 3]
           [mkPoint 4 3; mkPoint 0 3; mkPoint 0 0]);
    unfold rectStroke; [simpl; lia | lra | simpl; lia | | | | | ].
  - scan_at. rewrite distToSegment_degenerate, DC; lra.
  - scan_all i; rewrite !distToSegment_degenerate, DC, ?distance_refl, ?DB; lra.
  - scan_all i; rewrite !distToSegment_degenerate, DC, DD; lra.
  - apply rect_first_half.
  - apply rect_second_half.
Qed.


(** ** A round stroke *)



(** ** C9: what returns, and what does not *)

(** With a negative tolerance a scan that finds no point off the segment
    still asks for a split, at index 0: the second recursive call is on the
    whole array again. *)
Lemma simplifyPoints_stuck (pts : list Point) (eps : R) :
  (3 <= length pts)%nat -> scan pts (length pts - 1) = (0, 0%nat) -> eps < 0 ->
  forall fuel, simplifyPoints fuel pts eps = None.
Proof.
  intros Hlen Es Heps fuel. induction fuel as [|fuel IH]; [reflexivity|].
  rewrite simplifyPoints_split; [|exact Hlen | rewrite Es; simpl; lra].
  rewrite Es. simpl snd. change (skipn 0 pts) with pts. rewrite IH.
  destruct (simplifyPoints fuel (firstn (0 + 1) pts) eps); reflexivity.
Qed.

(** C9, counterexample: [simplifyPoints] has inputs on which it does not
    return. *)
Lemma simplifyPoints_not_total :
  ~ exists fuel out, simplifyPoints fuel restingStroke (- (1 / 2)) = Some out.
Proof.
  intros (fuel & out & H).
  rewrite (simplifyPoints_stuck restingStroke (- (1 / 2))) in H; [discriminate | | | ].
  - simpl. lia.
  - unfold restingStroke. apply scan_flat.
    scan_all i. rewrite distToSegment_self_first. lra.
  - lra.
Qed.

(** * Further properties of the geometry *)

(** ** More on the simplification *)

Lemma subseq_length {A : Type} (l1 l2 : list A) :
  subseq l1 l2 -> (length l1 <= length l2)%nat.
Proof. intros H. induction H; simpl; lia. Qed.

(** X6.  Whenever the simplification of two points or more returns, its
    result has at least two points and no more points than its input. *)
Theorem simplifyPoints_length (fuel : nat) (pts out : list Point) (eps : R) :
  simplifyPoints fuel pts eps = Some out ->
  (2 <= length pts)%nat ->
  (2 <= length out <= length pts)%nat.
Proof.
  intros E Hlen. split.
  - destruct (simplifyPoints_keepsEnds _ _ _ _ E) as [_ K].
    destruct (K Hlen) as [mid ->]. simpl. rewrite length_app. simpl. lia.
  - apply subseq_length. apply (simplifyPoints_subseq eps fuel). exact E.
Qed.

Lemma simplifyPoints_length_witness :
  simplifyPoints 3 rectStroke (1 / 4)
  = Some [mkPoint 0 0; mkPoint 4 0; mkPoint 4 3; mkPoint 0 3; mkPoint 0 0] /\
  (2 <= length rectStroke)%nat /\
  (2 <= length [mkPoint 0 0; mkPoint 4 0; mkPoint 4 3; mkPoint 0 3; mkPoint 0 0]
   <= length rectStroke)%nat.
Proof.
  assert (E := rectStroke_simplified 0).
  split; [exact E|]. split; [simpl; lia|].
  apply (simplifyPoints_length 3 rectStroke _ (1 / 4) E). simpl. lia.
Defined.

(** What a call that splits works with: the index found lies strictly inside
    the array, and the two partial results meet at the point of that index. *)
Lemma simplifyPoints_split_parts (eps : R) (pts res1 res2 : list Point) :
  (3 <= length pts)%nat ->
  0 < fst (scan pts (length pts - 1)) ->
  returns eps (firstn (snd (scan pts (length pts - 1)) + 1) pts) res1 ->
  returns eps (skipn (snd (scan pts (length pts - 1))) pts) res2 ->
  (1 <= snd (scan pts (length pts - 1)) < length pts - 1)%nat /\
  exists m1 m2,
    res1 = nth 0 pts origin :: m1 ++ [nth (snd (scan pts (length pts - 1))) pts origin] /\
    res2 = nth (snd (scan pts (length pts - 1))) pts origin
           :: m2 ++ [nth (length pts - 1) pts origin].
Proof.
  intros Hlen Hpos [f1 R1] [f2 R2].
  assert (Hidx := scan_index_inner pts Hpos).
  set (idx := snd (scan pts (length pts - 1))) in *.
  split; [exact Hidx|].
  assert (L1 : length (firstn (idx + 1) pts) = (idx + 1)%nat)
    by (rewrite length_firstn; lia).
  assert (L2 : length (skipn idx pts) = (length pts - idx)%nat) by apply length_skipn.
  destruct (simplifyPoints_keepsEnds _ _ _ _ R1) as [_ K1].
  destruct (simplifyPoints_keepsEnds _ _ _ _ R2) as [_ K2].
  destruct K1 as [m1 E1]; [lia|]. destruct K2 as [m2 E2]; [lia|].
  rewrite L1 in E1. replace (idx + 1 - 1)%nat with idx in E1 by lia.
  rewrite !nth_firstn_lt in E1 by lia.
  rewrite L2, !nth_skipn, Nat.add_0_r in E2.
  replace (idx + (length pts - idx - 1))%nat with (length pts - 1)%nat in E2 by lia.
  exists m1, m2. split; assumption.
Qed.

(** ** Simplifying twice *)

Lemma In_firstn_nth (pts : list Point) (k : nat) (q : Point) :
  In q (firstn k pts) -> exists j, (j < k)%nat /\ (j < length pts)%nat /\ nth j pts origin = q.
Proof.
  intros H. destruct (In_nth _ _ origin H) as (j & Hj & E).
  rewrite length_firstn in Hj. exists j. rewrite nth_firstn_lt in E by lia.
  split; [lia|]. split; [lia | exact E].
Qed.

Lemma In_skipn_nth (pts : list Point) (k : nat) (q : Point) :
  In q (skipn k pts) -> exists j, (k <= j < length pts)%nat /\ nth j pts origin = q.
Proof.
  intros H. destruct (In_nth _ _ origin H) as (j & Hj & E).
  rewrite length_skipn in Hj. rewrite nth_skipn in E.
  exists (k + j)%nat. split; [lia | exact E].
Qed.

(** The points before the split point are strictly nearer to the segment
    between the ends than it is, the points after it are not farther. *)
Lemma scan_before_after (pts : list Point) :
  0 < fst (scan pts (length pts - 1)) ->
  (forall q, In q (firstn (snd (scan pts (length pts - 1))) pts) ->
     distToSegment q (nth 0 pts origin) (nth (length pts - 1) pts origin)
     < fst (scan pts (length pts - 1))) /\
  (forall q, In q (skipn (snd (scan pts (length pts - 1))) pts) ->
     distToSegment q (nth 0 pts origin) (nth (length pts - 1) pts origin)
     <= fst (scan pts (length pts - 1))).
Proof.
  intros Hpos.
  destruct (scan_spec pts (length pts - 1)) as (Hall & [E | (Hr & Hd & _ & Hfirst)]);
    [rewrite E in Hpos; simpl in Hpos; lra|].
  unfold scanDist in *. split; intros q Hq.
  - destruct (In_firstn_nth _ _ _ Hq) as (j & Hj & _ & <-).
    destruct (Nat.eq_dec j 0) as [->|Hj0].
    + rewrite distToSegment_self_first. exact Hpos.
    + apply Hfirst. lia.
  - destruct (In_skipn_nth _ _ _ Hq) as (j & Hj & <-).
    destruct (Nat.eq_dec j (length pts - 1)) as [->|Hje].
    + rewrite distToSegment_self_last. lra.
    + apply Hall. lia.
Qed.

(** X8.  For a tolerance that is not negative the simplification is
    idempotent: simplifying its result again, with the same tolerance, returns
    that result unchanged. *)
Theorem simplifyPoints_idempotent (fuel : nat) (pts out : list Point) (eps : R) :
  0 <= eps ->
  simplifyPoints fuel pts eps = Some out ->
  forall fuel', (length out < fuel')%nat -> simplifyPoints fuel' out eps = Some out.
Proof.
  intros Heps E.
  enough (R : returns eps out out)
    by (intros fuel' Hf; apply returns_at; [exact Heps | exact R | exact Hf]).
  revert fuel pts out E. apply (simplifyPoints_ind eps (fun pts out => returns eps out out)).
  - intros pts Hlen. exists 1%nat. apply simplifyPoints_short. exact Hlen.
  - intros pts _ _. exists 1%nat. apply simplifyPoints_short. simpl. lia.
  - intros pts res1 res2 Hlen Hd R1 R2 [f1 I1] [f2 I2].
    assert (Hpos : 0 < fst (scan pts (length pts - 1))) by lra.
    destruct (simplifyPoints_split_parts eps pts res1 res2 Hlen Hpos R1 R2)
      as (Hidx & m1 & m2 & E1 & E2).
    destruct (scan_before_after pts Hpos) as [Hbefore Hafter].
    destruct (scan_spec pts (length pts - 1)) as (_ & [Ez | (_ & Hdmax & _)]);
      [rewrite Ez in Hpos; simpl in Hpos; lra|].
    unfold scanDist in Hdmax.
    destruct R1 as [g1 R1]. destruct R2 as [g2 R2].
    assert (S1 := simplifyPoints_subseq _ _ _ _ R1).
    assert (S2 := simplifyPoints_subseq _ _ _ _ R2).
    set (idx := snd (scan pts (length pts - 1))) in *.
    set (dmax := fst (scan pts (length pts - 1))) in *.
    set (p0 := nth 0 pts origin) in *. set (pe := nth (length pts - 1) pts origin) in *.
    set (pi := nth idx pts origin) in *.
    rewrite firstn_snoc in S1 by lia. apply subseq_removelast in S1.
    rewrite removelast_last in S1.
    (* the result, cut at the split point *)
    assert (Erl : removelast res1 = p0 :: m1).
    { rewrite E1, app_comm_cons, removelast_last. reflexivity. }
    assert (Eout : removelast res1 ++ res2 = (p0 :: m1) ++ res2)
      by (rewrite Erl; reflexivity).
    rewrite Erl in S1. rewrite Eout.
    assert (Lk : length (p0 :: m1) = S (length m1)) by reflexivity.
    assert (Lout : length ((p0 :: m1) ++ res2) = (S (length m1) + S (length m2 + 1))%nat).
    { rewrite length_app, E2. simpl. rewrite length_app. simpl. lia. }
    assert (N0 : nth 0 ((p0 :: m1) ++ res2) origin = p0) by reflexivity.
    assert (Ne : nth (length ((p0 :: m1) ++ res2) - 1) ((p0 :: m1) ++ res2) origin = pe).
    { rewrite app_nth2 by (rewrite Lout, Lk; lia). rewrite Lout, Lk, E2.
      replace (S (length m1) + S (length m2 + 1) - 1 - S (length m1))%nat
        with (S (length m2)) by lia.
      simpl. rewrite app_nth2 by lia. replace (length m2 - length m2)%nat with 0%nat by lia.
      reflexivity. }
    assert (Nk : nth (S (length m1)) ((p0 :: m1) ++ res2) origin = pi).
    { rewrite app_nth2 by (rewrite Lk; lia). rewrite Lk, Nat.sub_diag, E2. reflexivity. }
    assert (F1 : firstn (S (length m1) + 1) ((p0 :: m1) ++ res2) = res1).
    { rewrite firstn_app, Lk, firstn_all2 by (rewrite Lk; lia).
      replace (S (length m1) + 1 - S (length m1))%nat with 1%nat by lia.
      rewrite E2, E1. simpl. reflexivity. }
    assert (F2 : skipn (S (length m1)) ((p0 :: m1) ++ res2) = res2).
    { rewrite skipn_app, Lk, skipn_all2 by (rewrite Lk; lia).
      rewrite Nat.sub_diag. reflexivity. }
    exists (S (Nat.max f1 f2)).
    transitivity (Some (removelast res1 ++ res2)); [|rewrite Eout; reflexivity].
    apply (simplifyPoints_split_at _ _ _ (S (length m1)) res1 res2).
    + rewrite Lout. lia.
    + exact Heps.
    + rewrite Lout. lia.
    + unfold scanDist. rewrite N0, Ne, Nk, <- Hdmax. lra.
    + intros i Hi. unfold scanDist. rewrite N0, Ne, Nk, <- Hdmax.
      apply Hbefore. apply (subseq_In _ _ _ S1).
      rewrite app_nth1 by (rewrite Lk; lia). apply nth_In. rewrite Lk. lia.
    + intros i Hi. unfold scanDist. rewrite N0, Ne, Nk, <- Hdmax.
      apply Hafter. apply (subseq_In _ _ _ S2).
      rewrite app_nth2 by (rewrite Lk; lia). apply nth_In. rewrite Lout in Hi.
      rewrite Lk, E2. simpl. rewrite length_app. simpl. lia.
    + rewrite F1. apply (simplifyPoints_fuel_mono eps f1); [exact I1 | apply Nat.le_max_l].
    + rewrite F2. apply (simplifyPoints_fuel_mono eps f2); [exact I2 | apply Nat.le_max_r].
Qed.

Lemma simplifyPoints_idempotent_witness :
  0 <= 1 / 4 /\
  simplifyPoints 6 [mkPoint 0 0; mkPoint 4 0; mkPoint 4 3; mkPoint 0 3; mkPoint 0 0] (1 / 4)
  = Some [mkPoint 0 0; mkPoint 4 0; mkPoint 4 3; mkPoint 0 3; mkPoint 0 0].
Proof.
  split; [lra|].
  apply (simplifyPoints_idempotent 3 rectStroke _ (1 / 4));
    [lra | apply rectStroke_simplified | simpl; lia].
Defined.

(** * Further properties of the recogniser *)

(** ** The remaining branches *)




(** ** A triangular stroke *)






(** ** A stroke that goes back over itself *)






(** ** A flat closed stroke *)





Section FlatStroke.
Variable eps : R.
Hypothesis eps_range : 0 <= eps <= 3 / 2.









End FlatStroke.




(** * The whiteboard component *)

(** ** Zoom and pan *)

(** X20.  Whatever the wheel event, the zoom stays between 0.1 and 10. *)
Theorem handleWheel_scale_bounds (scale : R) (offset : Point) (deltaY : R) (mousePos : Point) :
  1 / 10 <= fst (handleWheel scale offset deltaY mousePos) <= 10.
Proof.
  unfold handleWheel. simpl fst.
  assert (H1 := Rmax_l (1 / 10) (scale * (1 + - deltaY * (1 / 1000)))).
  unfold Rmin. destruct (Rle_dec _ 10); lra.
Qed.

(** ** The eraser *)

Lemma filter_length_eq {A : Type} (f : A -> bool) (l : list A) :
  length (filter f l) = length l -> filter f l = l.
Proof.
  induction l as [|a l IH]; [reflexivity|]. simpl.
  assert (Hle := filter_length_le f l).
  destruct (f a); simpl; intros H.
  - f_equal. apply IH. lia.
  - lia.
Qed.

Lemma erasePaths_filter (worldPos : Point) (scale : R) (paths : list DrawingPath) :
  erasePaths worldPos scale paths
  = filter (fun p => negb (isPointNearPath worldPos p (10 / scale))) paths.
Proof.
  unfold erasePaths.
  destruct (length (filter _ paths) =? length paths)%nat eqn:E; simpl; [|reflexivity].
  apply Nat.eqb_eq in E. symmetry. apply filter_length_eq. exact E.
Qed.

Lemma filter_subseq {A : Type} (f : A -> bool) (l : list A) : subseq (filter f l) l.
Proof.
  induction l as [|a l IH]; simpl; [apply subseq_nil|].
  destruct (f a); [apply subseq_keep | apply subseq_skip]; exact IH.
Qed.

Lemma filter_idempotent {A : Type} (f : A -> bool) (l : list A) :
  filter f (filter f l) = filter f l.
Proof.
  induction l as [|a l IH]; [reflexivity|]. simpl.
  destruct (f a) eqn:E; simpl; [rewrite E, IH|]; auto.
Qed.

(** X24.  The eraser removes exactly the strokes that the hit test reports at
    the position of the eraser, with threshold [10 / scale]: the strokes left
    are the other ones, in their order, and nothing is added. *)
Theorem erasePaths_spec (worldPos : Point) (scale : R) (paths : list DrawingPath) :
  subseq (erasePaths worldPos scale paths) paths /\
  forall p, In p (erasePaths worldPos scale paths) <->
            In p paths /\ isPointNearPath worldPos p (10 / scale) = false.
Proof.
  rewrite erasePaths_filter. split; [apply filter_subseq|].
  intros p. rewrite filter_In, negb_true_iff. reflexivity.
Qed.

(** X25.  Erasing again at the same position removes nothing more. *)
Theorem erasePaths_idempotent (worldPos : Point) (scale : R) (paths : list DrawingPath) :
  erasePaths worldPos scale (erasePaths worldPos scale paths)
  = erasePaths worldPos scale paths.
Proof. rewrite !erasePaths_filter. apply filter_idempotent. Qed.

Lemma erasePaths_spec_aux (worldPos : Point) (scale : R) (paths : list DrawingPath)
    (p : DrawingPath) :
  In p paths -> isPointNearPath worldPos p (10 / scale) = false ->
  In p (erasePaths worldPos scale paths).
Proof.
  intros Hp Hn. rewrite erasePaths_filter. apply filter_In. split; [exact Hp|].
  rewrite Hn. reflexivity.
Qed.

(** X26.  A stroke of a single point (a dot) is never erased, wherever the
    eraser is and whatever the zoom: the hit test needs two points. *)
Theorem erasePaths_keeps_dots
    (worldPos : Point) (scale : R) (paths : list DrawingPath) (p : DrawingPath) :
  In p paths -> (length (points p) < 2)%nat ->
  In p (erasePaths worldPos scale paths).
Proof.
  intros Hp Hlen. apply erasePaths_spec_aux; [exact Hp|].
  unfold isPointNearPath. apply Nat.ltb_lt in Hlen. rewrite Hlen. reflexivity.
Qed.

Lemma erasePaths_keeps_dots_witness :
  In dotStroke [penStroke; dotStroke] /\
  (length (points dotStroke) < 2)%nat /\
  In dotStroke (erasePaths (mkPoint 5 0) 1 [penStroke; dotStroke]).
Proof.
  assert (H1 : In dotStroke [penStroke; dotStroke]) by (right; left; reflexivity).
  assert (H2 : (length (points dotStroke) < 2)%nat) by (simpl; lia).
  split; [exact H1|]. split; [exact H2|].
  exact (erasePaths_keeps_dots (mkPoint 5 0) 1 [penStroke; dotStroke] dotStroke H1 H2).
Defined.

(** ** Undo *)

(** X27.  [undo] takes back the last stroke added: after a stroke is added,
    it restores the board as it was; on an empty board it does nothing. *)
Theorem undo_addPath (paths : list DrawingPath) (newPath : DrawingPath) :
  undo (addPath paths newPath) = paths /\ undo [] = [].
Proof.
  split; [|reflexivity]. unfold undo, addPath. apply removelast_last.
Qed.

(** ** Shape correction of the stroke in progress *)

(** X28.  The correction leaves a stroke in progress of fewer than 10 points
    as it is: the recogniser asks for 10 points, more than the 5 the timer
    asks for. *)
Theorem shapeCorrection_short (fuel : nat) (path : DrawingPath) :
  (length (points path) < 10)%nat ->
  shapeCorrection fuel (Some path) = Returned (Some path).
Proof.
  intros Hlen. unfold shapeCorrection.
  destruct (length (points path) <? 5)%nat; [reflexivity|].
  rewrite recognizeShape_few by exact Hlen. reflexivity.
Qed.

Lemma shapeCorrection_short_witness :
  (length (points penStroke) < 10)%nat /\
  shapeCorrection 0 (Some penStroke) = Returned (Some penStroke).
Proof.
  split; [simpl; lia|]. apply (shapeCorrection_short 0 penStroke). simpl. lia.
Defined.

(** * Audio samples *)

Lemma truncate_bounds (r : R) :
  (0 <= r -> IZR (truncate r) <= r < IZR (truncate r) + 1) /\
  (r < 0 -> r <= IZR (truncate r) < r + 1).
Proof.
  unfold truncate. destruct (Rle_dec 0 r) as [H|H]; split; intros H'; try lra.
  - destruct (base_Int_part r). lra.
  - destruct (base_Int_part (- r)). rewrite opp_IZR. lra.
Qed.

(** The 16-bit value written for a sample in [-1, 1]: it is in range, and it
    is the sample times 2^15 up to less than 2. *)
Lemma pcm_sample_value (s : R) :
  -1 <= s <= 1 ->
  let z := toInt16 (if Rltb s 0 then s * 32768 else s * 32767) in
  (-32768 <= z <= 32767)%Z /\ -2 < IZR z - s * 32768 < 2.
Proof.
  intros Hs. cbv zeta.
  set (v := if Rltb s 0 then s * 32768 else s * 32767).
  assert (Ht : (-32768 <= truncate v <= 32767)%Z /\ -2 < IZR (truncate v) - s * 32768 < 2).
  { destruct (truncate_bounds v) as [Hp Hn]. unfold v in *.
    destruct (Rltb s 0) eqn:E.
    - apply Rltb_true in E. destruct Hn as [H1 H2]; [lra|]. split; [|lra]. split.
      + apply le_IZR. lra.
      + apply Z.lt_succ_r. apply lt_IZR. rewrite succ_IZR. lra.
    - apply Rltb_false in E. destruct Hp as [H1 H2]; [lra|]. split; [|lra]. split.
      + assert (-1 < truncate (s * 32767))%Z by (apply lt_IZR; lra). lia.
      + apply le_IZR. lra. }
  destruct Ht as [Hr He].
  assert (Ez : toInt16 v = truncate v).
  { unfold toInt16. cbv zeta.
    destruct (Z.leb_spec 32768 (truncate v mod 65536)); Z.div_mod_to_equations; lia. }
  rewrite Ez. split; assumption.
Qed.

(** Two bytes written, then read as a signed 16-bit value. *)
Lemma setInt16LE_read (value : R) (rest : list Z) (values : list Z) :
  int16Array rest = Some values ->
  int16Array (setInt16LE value ++ rest) = Some (toInt16 value :: values).
Proof.
  intros E. unfold setInt16LE. cbv zeta. cbn [app int16Array]. rewrite E. cbv zeta.
  f_equal. f_equal.
  assert (Hz : (-32768 <= toInt16 value <= 32767)%Z).
  { unfold toInt16. cbv zeta.
    destruct (Z.leb_spec 32768 (truncate value mod 65536)); Z.div_mod_to_equations; lia. }
  destruct (Z.leb_spec 32768
              ((toInt16 value mod 65536) mod 256 + 256 * ((toInt16 value mod 65536) / 256)));
    Z.div_mod_to_equations; lia.
Qed.

Lemma setInt16LE_bytes (value : R) (b : Z) :
  In b (setInt16LE value) -> (0 <= b < 256)%Z.
Proof.
  unfold setInt16LE. cbv zeta. cbn [In]. intros [<-|[<-|[]]]; Z.div_mod_to_equations; lia.
Qed.

Lemma pcm_decoded (float32Arr : list R) :
  pcmToFloat32 (float32To16BitPCM float32Arr)
  = Some (map (fun sample =>
                 let s := Rmax (-1) (Rmin 1 sample) in
                 IZR (toInt16 (if Rltb s 0 then s * 32768 else s * 32767)) / 32768)
              float32Arr).
Proof.
  unfold pcmToFloat32.
  assert (E : int16Array (float32To16BitPCM float32Arr)
              = Some (map (fun sample =>
                             let s := Rmax (-1) (Rmin 1 sample) in
                             toInt16 (if Rltb s 0 then s * 32768 else s * 32767))
                          float32Arr)).
  { unfold float32To16BitPCM. induction float32Arr as [|a l IH]; [reflexivity|].
    cbn [flat_map map]. cbv zeta. apply setInt16LE_read. exact IH. }
  rewrite E. cbn [option_map]. rewrite map_map. reflexivity.
Qed.

Lemma clamp_unit_range (v : R) : -1 <= Rmax (-1) (Rmin 1 v) <= 1.
Proof.
  unfold Rmax, Rmin. destruct (Rle_dec 1 v); destruct (Rle_dec (-1) _); lra.
Qed.

(** X30.  Encoding samples as 16-bit PCM and decoding the bytes gives back
    every sample, clamped to [-1, 1], with an error below 1/16384: the buffer
    has two bytes per sample, every byte is below 256, and the decoder accepts
    it. *)
Theorem pcm_round_trip (float32Arr : list R) :
  length (float32To16BitPCM float32Arr) = (2 * length float32Arr)%nat /\
  (forall b, In b (float32To16BitPCM float32Arr) -> (0 <= b < 256)%Z) /\
  exists decoded,
    pcmToFloat32 (float32To16BitPCM float32Arr) = Some decoded /\
    Forall2 (fun sample d => Rabs (d - Rmax (-1) (Rmin 1 sample)) < 1 / 16384)
            float32Arr decoded.
Proof.
  split; [|split].
  - unfold float32To16BitPCM. induction float32Arr as [|a l IH]; [reflexivity|].
    cbn [flat_map]. rewrite length_app, IH. simpl. lia.
  - intros b Hb. unfold float32To16BitPCM in Hb. apply in_flat_map in Hb.
    destruct Hb as (v & _ & Hb). apply (setInt16LE_bytes _ _ Hb).
  - eexists. split; [apply pcm_decoded|].
    induction float32Arr as [|a l IH]; [constructor|].
    cbn [map]. constructor; [|exact IH]. cbv zeta.
    assert (Hc := clamp_unit_range a).
    destruct (pcm_sample_value _ Hc) as [_ He].
    set (s := Rmax (-1) (Rmin 1 a)) in *.
    set (z := IZR (toInt16 (if Rltb s 0 then s * 32768 else s * 32767))) in *.
    apply Rabs_def1; lra.
Qed.

(** * Binary64: the order of the numbers *)

(** The comparison of binary64 numbers, on their specification: [<] is
    transitive, and a number that is not NaN lies above the smaller or below
    the larger of two numbers in order. *)

Ltac compare_cases :=
  repeat match goal with
  | H : context [Z.compare ?a ?b] |- _ => destruct (Z.compare_spec a b)
  | |- context [Z.compare ?a ?b] => destruct (Z.compare_spec a b)
  | H : context [Pos.compare_cont Eq ?a ?b] |- _ =>
      change (Pos.compare_cont Eq a b) with (Pos.compare a b) in H;
      destruct (Pos.compare_spec a b)
  | |- context [Pos.compare_cont Eq ?a ?b] =>
      change (Pos.compare_cont Eq a b) with (Pos.compare a b);
      destruct (Pos.compare_spec a b)
  end.

Lemma SFcompare_Lt_trans (a b c : spec_float) :
  SFcompare a b = Some Lt -> SFcompare b c = Some Lt -> SFcompare a c = Some Lt.
Proof.
  destruct a as [sa|sa| |sa ma ea], b as [sb|sb| |sb mb eb], c as [sc|sc| |sc mc ec];
    cbn [SFcompare]; try discriminate; try reflexivity;
    try destruct sa; try destruct sb; try destruct sc;
    try discriminate; try reflexivity; intros H1 H2;
    compare_cases; cbn [CompOpp] in *; try discriminate; try reflexivity; subst; lia.
Qed.

Lemma SFcompare_Lt_cotrans (e m a : spec_float) :
  SFcompare e a = Some Lt -> m <> S754_nan ->
  SFcompare m a = Some Lt \/ SFcompare e m = Some Lt.
Proof.
  destruct e as [se|se| |se me ee], m as [sm|sm| |sm mm em], a as [sa|sa| |sa ma ea];
    cbn [SFcompare]; try discriminate; try congruence; auto;
    try destruct se; try destruct sm; try destruct sa;
    try discriminate; auto; intros H1 _;
    compare_cases; cbn [CompOpp] in *; try discriminate; auto; subst; lia.
Qed.

Lemma SFcompare_same (a : spec_float) :
  SFcompare a a = if match a with S754_nan => true | _ => false end then None else Some Eq.
Proof.
  destruct a as [sa|sa| |sa ma ea]; cbn [SFcompare]; try reflexivity;
    destruct sa; try reflexivity; rewrite Z.compare_refl;
    change (Pos.compare_cont Eq ma ma) with (Pos.compare ma ma);
    rewrite Pos.compare_refl; reflexivity.
Qed.

Lemma SFltb_Lt (a b : spec_float) : SFltb a b = true <-> SFcompare a b = Some Lt.
Proof.
  unfold SFltb. destruct (SFcompare a b) as [[| |]|]; split; congruence.
Qed.

Section Binary64Order.
Local Open Scope float_scope.

(** A number that is not NaN equals itself. *)
Lemma eqb_same_not_nan (a : float) : (a =? a) = true <-> Prim2SF a <> S754_nan.
Proof.
  rewrite FloatAxioms.eqb_spec. unfold SFeqb. rewrite SFcompare_same.
  destruct (Prim2SF a); split; congruence.
Qed.

Lemma ltb_irrefl (a : float) : (a <? a) = false.
Proof.
  rewrite FloatAxioms.ltb_spec. unfold SFltb. rewrite SFcompare_same.
  destruct (Prim2SF a); reflexivity.
Qed.

Lemma ltb_trans (a b c : float) :
  (a <? b) = true -> (b <? c) = true -> (a <? c) = true.
Proof.
  rewrite !FloatAxioms.ltb_spec, !SFltb_Lt. apply SFcompare_Lt_trans.
Qed.

Lemma ltb_cotrans (e m a : float) :
  (e <? a) = true -> (m =? m) = true -> (m <? a) = true \/ (e <? m) = true.
Proof.
  rewrite eqb_same_not_nan, !FloatAxioms.ltb_spec, !SFltb_Lt. apply SFcompare_Lt_cotrans.
Qed.

Lemma ltb_not_nan_r (a b : float) : (a <? b) = true -> (b =? b) = true.
Proof.
  rewrite eqb_same_not_nan, FloatAxioms.ltb_spec, SFltb_Lt.
  intros H E. rewrite E in H. destruct (Prim2SF a); discriminate.
Qed.

(** What is not above a maximum that is not above [e] is not above [e]. *)
Lemma ltb_below_max (e m a : float) :
  (m =? m) = true -> (m <? a) = false -> (e <? m) = false -> (e <? a) = false.
Proof.
  intros Hm H1 H2. destruct (e <? a) eqn:E; [|reflexivity].
  destruct (ltb_cotrans e m a E Hm); congruence.
Qed.

(** ** Signs *)

(** What rounding returns has the sign it was given, or is NaN. *)
Lemma binary_round_aux_sign (s : bool) (m e : Z) (l : location) :
  match binary_round_aux prec emax s m e l with
  | S754_zero s' | S754_infinity s' | S754_finite s' _ _ => s' = s
  | S754_nan => True
  end.
Proof.
  unfold binary_round_aux.
  destruct (shr_fexp prec emax m e l) as [mrs' e'].
  destruct (shr_fexp prec emax _ e' loc_Exact) as [mrs'' e''].
  destruct (shr_m mrs''); [reflexivity | | exact I].
  destruct (Z.leb e'' (emax - prec)); reflexivity.
Qed.

Lemma Prim2SF_zero : Prim2SF 0 = S754_zero false.
Proof. reflexivity. Qed.

Lemma ltb_zero_false (a : float) : (a <? 0) = false <-> Binary64.notNegative (Prim2SF a).
Proof.
  rewrite FloatAxioms.ltb_spec, Prim2SF_zero. unfold SFltb.
  destruct (Prim2SF a) as [s|s| |s m e]; cbn; try tauto;
    destruct s; split; congruence.
Qed.

Lemma sqrt_not_negative (a : float) : (PrimFloat.sqrt a <? 0) = false.
Proof.
  rewrite ltb_zero_false, FloatAxioms.sqrt_spec. unfold SF64sqrt, SFsqrt.
  destruct (Prim2SF a) as [s|s| |s m e]; cbn; try exact I.
  - destruct s; cbn; [exact I | reflexivity].
  - destruct s; [exact I|].
    destruct (SFsqrt_core_binary prec emax (Z.pos m) e) as [[mz ez] lz].
    pose proof (binary_round_aux_sign false mz ez lz) as H.
    destruct (binary_round_aux prec emax false mz ez lz); cbn; auto.
Qed.

Lemma mul_not_negative (a b : float) :
  (a <? 0) = false -> (b <? 0) = false -> (a * b <? 0) = false.
Proof.
  rewrite !ltb_zero_false, FloatAxioms.mul_spec. unfold SF64mul, SFmul.
  destruct (Prim2SF a) as [sa|sa| |sa ma ea], (Prim2SF b) as [sb|sb| |sb mb eb];
    cbn; try tauto; try (intros -> ->; reflexivity);
    try (intros _ ->; destruct sa; reflexivity);
    try (intros -> _; destruct sb; reflexivity).
  intros -> ->.
  pose proof (binary_round_aux_sign (xorb false false) (Z.pos (ma * mb)) (ea + eb) loc_Exact) as H.
  destruct (binary_round_aux prec emax (xorb false false) (Z.pos (ma * mb)) (ea + eb) loc_Exact);
    cbn; auto.
Qed.

(** ** The square of a difference *)

(** Exchanging the two numbers of a difference changes its sign only, and
    the sign does not enter the square. *)
Lemma binary_round_aux_magnitude (s s' : bool) (m e : Z) (l : location) :
  Binary64.sameMagnitude (binary_round_aux prec emax s m e l)
                         (binary_round_aux prec emax s' m e l).
Proof.
  unfold binary_round_aux.
  destruct (shr_fexp prec emax m e l) as [mrs' e'].
  destruct (shr_fexp prec emax _ e' loc_Exact) as [mrs'' e''].
  destruct (shr_m mrs''); cbn; try exact I.
  destruct (e'' <=? 971)%Z; cbn; [split; reflexivity | exact I].
Qed.

Lemma binary_normalize_opp (z e : Z) :
  Binary64.sameMagnitude (binary_normalize prec emax z e false)
                         (binary_normalize prec emax (- z) e false).
Proof.
  destruct z as [|m|m]; cbn [Z.opp binary_normalize]; [exact I | |];
    unfold binary_round;
    destruct (shl_align m e (fexp prec emax (Z.pos (digits2_pos m) + e))) as [mz ez];
    apply binary_round_aux_magnitude.
Qed.

Lemma SFsub_swap (a b : spec_float) :
  Binary64.sameMagnitude (SFsub prec emax a b) (SFsub prec emax b a).
Proof.
  destruct a as [sa|sa| |sa ma ea], b as [sb|sb| |sb mb eb]; cbn [SFsub];
    try (destruct sa, sb; cbn; auto; fail); try (cbn; auto; fail).
  rewrite (Z.min_comm eb ea).
  set (za := cond_Zopp sa _). set (zb := cond_Zopp sb _).
  replace (zb - za)%Z with (- (za - zb))%Z by lia.
  apply binary_normalize_opp.
Qed.

Lemma SFmul_square (a b : spec_float) :
  Binary64.sameMagnitude a b -> SFmul prec emax a a = SFmul prec emax b b.
Proof.
  destruct a as [sa|sa| |sa ma ea], b as [sb|sb| |sb mb eb]; cbn; try contradiction;
    try (intros _; destruct sa, sb; reflexivity); try reflexivity.
  intros [-> ->]. destruct sa, sb; reflexivity.
Qed.

Lemma square_sub_swap (a b : float) : (a - b) * (a - b) = (b - a) * (b - a).
Proof.
  apply Prim2SF_inj. rewrite !FloatAxioms.mul_spec, !FloatAxioms.sub_spec.
  apply SFmul_square, SFsub_swap.
Qed.

(** ** Finite numbers *)

Lemma is_finite_SF (a : float) :
  is_finite a = true ->
  match Prim2SF a with S754_zero _ | S754_finite _ _ _ => True | _ => False end.
Proof.
  unfold is_finite, is_nan, is_infinity.
  rewrite !FloatAxioms.eqb_spec, FloatAxioms.abs_spec.
  change (Prim2SF infinity) with (S754_infinity false).
  destruct (Prim2SF a) as [s|s| |s m e]; cbn; try exact (fun _ => I); try discriminate.
  destruct s; discriminate.
Qed.

(** The difference of a finite number and itself is [+0]. *)
Lemma sub_same (a : float) : is_finite a = true -> a - a = 0.
Proof.
  intros H. apply is_finite_SF in H. apply Prim2SF_inj.
  rewrite FloatAxioms.sub_spec. change (Prim2SF 0) with (S754_zero false).
  unfold SF64sub, SFsub.
  destruct (Prim2SF a) as [s|s| |s m e]; try contradiction.
  - destruct s; reflexivity.
  - rewrite Z.sub_diag. reflexivity.
Qed.

End Binary64Order.

(** * Binary64: the simplification *)

Section Binary64Simplify.
Import Binary64.
Local Open Scope float_scope.

(** ** The scan for the farthest point *)

Section Scan64.
Variable pts : list Point.
Variable endIdx : nat.

Local Abbreviation scanD := (scanDist pts endIdx).

Lemma scanStep_cases64 (st : float * nat) (i : nat) :
  ((fst st <? scanD i) = true /\ scanStep pts endIdx st i = (scanD i, i)) \/
  ((fst st <? scanD i) = false /\ scanStep pts endIdx st i = st).
Proof.
  unfold scanStep. fold (scanDist pts endIdx i).
  destruct (fst st <? scanD i); [left | right]; split; reflexivity.
Qed.

(** Invariant of the loop over the indices [a, a + n): the running maximum
    is a number, no distance seen is above it, and it is the start value or
    the distance of the index kept. *)
Lemma scan_from64 (n a : nat) (st : float * nat) :
  (fst st =? fst st) = true ->
  let st' := fold_left (scanStep pts endIdx) (seq a n) st in
  (fst st' =? fst st') = true /\
  (fst st' <? fst st) = false /\
  (forall i, (a <= i < a + n)%nat -> (fst st' <? scanD i) = false) /\
  (st' = st \/
   ((a <= snd st' < a + n)%nat /\ fst st' = scanD (snd st') /\
    (fst st <? fst st') = true)).
Proof.
  revert a st. induction n as [|n IH]; intros a st Hst; cbn [seq fold_left].
  - split; [exact Hst|]. split; [apply ltb_irrefl|].
    split; [intros i Hi; lia | left; reflexivity].
  - destruct (scanStep_cases64 st a) as [[Hlt E]|[Hge E]]; rewrite E.
    + assert (Hd : (scanD a =? scanD a) = true) by (apply (ltb_not_nan_r _ _ Hlt)).
      destruct (IH (S a) (scanD a, a) Hd) as (Hn & Hle & Hall & Hnew).
      cbn [fst snd] in *.
      set (st' := fold_left (scanStep pts endIdx) (seq (S a) n) (scanD a, a)) in *.
      split; [exact Hn|]. split.
      { destruct (fst st' <? fst st) eqn:C; [|reflexivity].
        rewrite (ltb_trans _ _ _ C Hlt) in Hle. discriminate. }
      split.
      { intros i Hi. destruct (Nat.eq_dec i a) as [->|Hne]; [exact Hle|].
        apply Hall. lia. }
      right. destruct Hnew as [-> | (Hr & Hd' & Hl)]; cbn [fst snd].
      * split; [lia|]. split; [reflexivity | exact Hlt].
      * split; [lia|]. split; [exact Hd'|]. apply (ltb_trans _ _ _ Hlt Hl).
    + destruct (IH (S a) st Hst) as (Hn & Hle & Hall & Hnew).
      set (st' := fold_left (scanStep pts endIdx) (seq (S a) n) st) in *.
      split; [exact Hn|]. split; [exact Hle|]. split.
      { intros i Hi. destruct (Nat.eq_dec i a) as [->|Hne].
        - apply (ltb_below_max _ (fst st)); assumption.
        - apply Hall. lia. }
      destruct Hnew as [-> | (Hr & Hd' & Hl)]; [left; reflexivity|].
      right. split; [lia|]. split; assumption.
Qed.

(** What the scan returns: no inner point is farther than [dmax], which is
    the start value 0 with index 0 or the distance of an inner point. *)
Lemma scan_spec64 :
  let st := scan pts endIdx in
  (fst st =? fst st) = true /\
  (forall i, (1 <= i < endIdx)%nat -> (fst st <? scanD i) = false) /\
  (st = (0, 0%nat) \/
   ((1 <= snd st < endIdx)%nat /\ fst st = scanD (snd st) /\ (0 <? fst st) = true)).
Proof.
  unfold scan.
  destruct (scan_from64 (endIdx - 1) 1 (0, 0%nat) eq_refl) as (Hn & _ & Hall & Hnew).
  cbn [fst snd] in *. split; [exact Hn|]. split.
  - intros i Hi. apply Hall. lia.
  - destruct Hnew as [E | (Hr & Hd & Hl)]; [left; exact E|].
    right. split; [lia|]. split; assumption.
Qed.
End Scan64.

(** ** Unfolding [simplifyPoints] *)

Lemma simplifyPoints_short64 (fuel : nat) (pts : list Point) (eps : float) :
  (length pts < 3)%nat -> simplifyPoints (S fuel) pts eps = Some pts.
Proof.
  intros H. cbn [simplifyPoints]. apply Nat.ltb_lt in H. rewrite H. reflexivity.
Qed.

Lemma simplifyPoints_collapse64 (fuel : nat) (pts : list Point) (eps : float) :
  (3 <= length pts)%nat ->
  (eps <? fst (scan pts (length pts - 1))) = false ->
  simplifyPoints (S fuel) pts eps
  = Some [nth 0 pts origin; nth (length pts - 1) pts origin].
Proof.
  intros Hlen Hd. cbn [simplifyPoints].
  assert (E : (length pts <? 3)%nat = false) by (apply Nat.ltb_ge; lia).
  rewrite E. destruct (scan pts (length pts - 1)) as [dmax idx]; cbn [fst] in Hd.
  rewrite Hd. reflexivity.
Qed.

Lemma simplifyPoints_split64 (fuel : nat) (pts : list Point) (eps : float) :
  (3 <= length pts)%nat ->
  (eps <? fst (scan pts (length pts - 1))) = true ->
  simplifyPoints (S fuel) pts eps
  = match simplifyPoints fuel (firstn (snd (scan pts (length pts - 1)) + 1) pts) eps with
    | None => None
    | Some res1 =>
        match simplifyPoints fuel (skipn (snd (scan pts (length pts - 1))) pts) eps with
        | None => None
        | Some res2 => Some (removelast res1 ++ res2)
        end
    end.
Proof.
  intros Hlen Hd. cbn [simplifyPoints].
  assert (E : (length pts <? 3)%nat = false) by (apply Nat.ltb_ge; lia).
  rewrite E. destruct (scan pts (length pts - 1)) as [dmax idx]; cbn [fst snd] in *.
  rewrite Hd. reflexivity.
Qed.

(** Induction on the calls of [simplifyPoints] that return. *)
Lemma simplifyPoints_ind64 (eps : float) (P : list Point -> list Point -> Prop) :
  (forall pts, (length pts < 3)%nat -> P pts pts) ->
  (forall pts, (3 <= length pts)%nat ->
     (eps <? fst (scan pts (length pts - 1))) = false ->
     P pts [nth 0 pts origin; nth (length pts - 1) pts origin]) ->
  (forall pts res1 res2 fuel, (3 <= length pts)%nat ->
     (eps <? fst (scan pts (length pts - 1))) = true ->
     simplifyPoints fuel (firstn (snd (scan pts (length pts - 1)) + 1) pts) eps = Some res1 ->
     simplifyPoints fuel (skipn (snd (scan pts (length pts - 1))) pts) eps = Some res2 ->
     P (firstn (snd (scan pts (length pts - 1)) + 1) pts) res1 ->
     P (skipn (snd (scan pts (length pts - 1))) pts) res2 ->
     P pts (removelast res1 ++ res2)) ->
  forall fuel pts out, simplifyPoints fuel pts eps = Some out -> P pts out.
Proof.
  intros Hshort Hflat Hsplit fuel.
  induction fuel as [|fuel IH]; intros pts out H; [discriminate|].
  destruct (Nat.lt_ge_cases (length pts) 3) as [Hlen|Hlen].
  - rewrite simplifyPoints_short64 in H by exact Hlen.
    injection H as <-. apply Hshort; exact Hlen.
  - destruct (eps <? fst (scan pts (length pts - 1))) eqn:Hd.
    + rewrite simplifyPoints_split64 in H by assumption.
      destruct (simplifyPoints fuel (firstn _ pts) eps) as [res1|] eqn:E1; [|discriminate].
      destruct (simplifyPoints fuel (skipn _ pts) eps) as [res2|] eqn:E2; [|discriminate].
      injection H as <-.
      apply (Hsplit pts res1 res2 fuel); auto.
    + rewrite simplifyPoints_collapse64 in H by assumption.
      injection H as <-. apply Hflat; assumption.
Qed.

(** Where the scan can point: inside the array, and strictly inside when it
    asks for a split with a tolerance that is not negative. *)
Lemma scan_index_range64 (pts : list Point) :
  (3 <= length pts)%nat ->
  (snd (scan pts (length pts - 1)) < length pts - 1)%nat.
Proof.
  intros Hlen.
  destruct (scan_spec64 pts (length pts - 1)) as (_ & _ & [E | (Hr & _)]).
  - rewrite E. cbn [snd]. lia.
  - lia.
Qed.

Lemma scan_index_inner64 (pts : list Point) (eps : float) :
  (eps <? 0) = false ->
  (eps <? fst (scan pts (length pts - 1))) = true ->
  (1 <= snd (scan pts (length pts - 1)) < length pts - 1)%nat.
Proof.
  intros Heps Hd.
  destruct (scan_spec64 pts (length pts - 1)) as (_ & _ & [E | (Hr & _)]).
  - rewrite E in Hd. cbn [fst] in Hd. congruence.
  - exact Hr.
Qed.

(** ** Termination for a tolerance that is not negative *)

Lemma simplifyPoints_returns64 (eps : float) :
  (eps <? 0) = false ->
  forall fuel pts, (length pts < fuel)%nat ->
  exists out, simplifyPoints fuel pts eps = Some out.
Proof.
  intros Heps fuel. induction fuel as [|fuel IH]; intros pts Hf; [lia|].
  destruct (Nat.lt_ge_cases (length pts) 3) as [Hlen|Hlen].
  - exists pts. apply simplifyPoints_short64. exact Hlen.
  - destruct (eps <? fst (scan pts (length pts - 1))) eqn:Hd.
    + rewrite simplifyPoints_split64 by assumption.
      assert (Hr := scan_index_inner64 pts eps Heps Hd).
      destruct (IH (firstn (snd (scan pts (length pts - 1)) + 1) pts)) as [res1 ->].
      { rewrite length_firstn. lia. }
      destruct (IH (skipn (snd (scan pts (length pts - 1))) pts)) as [res2 ->].
      { rewrite length_skipn. lia. }
      eexists. reflexivity.
    + eexists. apply simplifyPoints_collapse64; assumption.
Qed.

(** More fuel does not change a result. *)
Lemma simplifyPoints_fuel_mono64 (eps : float) (fuel : nat) :
  forall pts out fuel', simplifyPoints fuel pts eps = Some out ->
  (fuel <= fuel')%nat -> simplifyPoints fuel' pts eps = Some out.
Proof.
  induction fuel as [|fuel IH]; intros pts out fuel' H Hle; [discriminate|].
  destruct fuel' as [|fuel']; [lia|].
  destruct (Nat.lt_ge_cases (length pts) 3) as [Hlen|Hlen].
  - rewrite simplifyPoints_short64 in * by exact Hlen. exact H.
  - destruct (eps <? fst (scan pts (length pts - 1))) eqn:Hd.
    + rewrite simplifyPoints_split64 in * by assumption.
      destruct (simplifyPoints fuel (firstn _ pts) eps) as [res1|] eqn:E1; [|discriminate].
      destruct (simplifyPoints fuel (skipn _ pts) eps) as [res2|] eqn:E2; [|discriminate].
      rewrite (IH _ _ fuel' E1), (IH _ _ fuel' E2) by lia. exact H.
    + rewrite simplifyPoints_collapse64 in * by assumption. exact H.
Qed.

Lemma simplifyPoints_total64 (eps : float) (pts : list Point) :
  (eps <? 0) = false ->
  exists out, forall fuel, (length pts < fuel)%nat -> simplifyPoints fuel pts eps = Some out.
Proof.
  intros Heps.
  destruct (simplifyPoints_returns64 eps Heps (S (length pts)) pts) as [out E]; [lia|].
  exists out. intros fuel Hf.
  apply (simplifyPoints_fuel_mono64 eps (S (length pts))); [exact E | lia].
Qed.

(** ** The output keeps the two ends *)

Lemma nth_firstn_lt64 (i n : nat) (l : list Point) :
  (i < n)%nat -> nth i (firstn n l) origin = nth i l origin.
Proof.
  intros H. rewrite nth_firstn. apply Nat.ltb_lt in H. rewrite H. reflexivity.
Qed.

Lemma firstn_snoc64 (pts : list Point) (k : nat) :
  (k < length pts)%nat -> firstn (k + 1) pts = firstn k pts ++ [nth k pts origin].
Proof.
  revert pts. induction k as [|k IH]; intros [|a r] H; cbn in *; try lia.
  - reflexivity.
  - f_equal. apply IH. lia.
Qed.

(** The output of a call on two points or more: the first point, some
    points, the last point. *)
Lemma simplifyPoints_keepsEnds64 (eps : float) (fuel : nat) (pts out : list Point) :
  (eps <? 0) = false ->
  simplifyPoints fuel pts eps = Some out ->
  (2 <= length pts)%nat ->
  exists mid, out = nth 0 pts origin :: mid ++ [nth (length pts - 1) pts origin].
Proof.
  intros Heps. revert fuel pts out.
  apply (simplifyPoints_ind64 eps (fun pts out => (2 <= length pts)%nat ->
           exists mid, out = nth 0 pts origin :: mid ++ [nth (length pts - 1) pts origin])).
  - intros pts Hlen H2. exists [].
    destruct pts as [|a [|b [|c r]]]; cbn in *; try lia. reflexivity.
  - intros pts Hlen _ _. exists []. reflexivity.
  - intros pts res1 res2 fuel Hlen Hd _ _ H1 H2 _.
    assert (Hidx := scan_index_inner64 pts eps Heps Hd).
    set (idx := snd (scan pts (length pts - 1))) in *.
    assert (L1 : length (firstn (idx + 1) pts) = (idx + 1)%nat)
      by (rewrite length_firstn; lia).
    assert (L2 : length (skipn idx pts) = (length pts - idx)%nat) by apply length_skipn.
    destruct H1 as [mid1 E1]; [lia|]. destruct H2 as [mid2 E2]; [lia|].
    rewrite L1, !nth_firstn_lt64 in E1 by lia.
    rewrite L2, !nth_skipn, Nat.add_0_r in E2.
    replace (idx + (length pts - idx - 1))%nat with (length pts - 1)%nat in E2 by lia.
    rewrite E1, E2, app_comm_cons, removelast_last.
    exists (mid1 ++ nth idx pts origin :: mid2).
    cbn [app]. rewrite <- app_assoc. reflexivity.
Qed.

Lemma segmentsOf_app_shared64 (l r : list Point) (a : Point) :
  segmentsOf (l ++ a :: r) = segmentsOf (l ++ [a]) ++ segmentsOf (a :: r).
Proof.
  induction l as [|b l IH]; [reflexivity|].
  destruct l as [|c l]; [reflexivity|].
  change (segmentsOf ((b :: c :: l) ++ a :: r))
    with ((b, c) :: segmentsOf ((c :: l) ++ a :: r)).
  rewrite IH. reflexivity.
Qed.

(** ** The points dropped *)

Lemma simplifyPoints_covered64 (eps : float) :
  (eps <? 0) = false ->
  forall fuel pts out, simplifyPoints fuel pts eps = Some out -> covered eps pts out.
Proof.
  intros Heps. apply (simplifyPoints_ind64 eps (covered eps)).
  - intros pts _ p Hp. left. exact Hp.
  - intros pts Hlen Hd p Hp.
    destruct (In_nth _ _ origin Hp) as (i & Hi & <-).
    destruct (Nat.eq_dec i 0) as [->|Hi0]; [left; left; reflexivity|].
    destruct (Nat.eq_dec i (length pts - 1)) as [->|Hie];
      [left; right; left; reflexivity|].
    right. exists (nth 0 pts origin, nth (length pts - 1) pts origin).
    split; [left; reflexivity|]. cbn [fst snd].
    destruct (scan_spec64 pts (length pts - 1)) as (Hn & Hall & _).
    apply (ltb_below_max _ (fst (scan pts (length pts - 1)))); [exact Hn | | exact Hd].
    apply Hall. lia.
  - intros pts res1 res2 fuel Hlen Hd R1 R2 Cl Cr p Hp.
    assert (Hidx := scan_index_inner64 pts eps Heps Hd).
    set (idx := snd (scan pts (length pts - 1))) in *.
    assert (L1 : length (firstn (idx + 1) pts) = (idx + 1)%nat)
      by (rewrite length_firstn; lia).
    assert (L2 : length (skipn idx pts) = (length pts - idx)%nat) by apply length_skipn.
    destruct (simplifyPoints_keepsEnds64 _ _ _ _ Heps R1) as [m1 E1]; [lia|].
    destruct (simplifyPoints_keepsEnds64 _ _ _ _ Heps R2) as [m2 E2]; [lia|].
    rewrite L1 in E1. replace (idx + 1 - 1)%nat with idx in E1 by lia.
    rewrite (nth_firstn_lt64 idx) in E1 by lia.
    rewrite nth_skipn, Nat.add_0_r in E2.
    assert (Eout : segmentsOf (removelast res1 ++ res2)
                   = segmentsOf res1 ++ segmentsOf res2).
    { rewrite E1, E2, app_comm_cons, removelast_last.
      apply segmentsOf_app_shared64. }
    assert (Ein : forall q, In q res1 -> In q (removelast res1 ++ res2)).
    { intros q Hq. rewrite E1, app_comm_cons in Hq |- *. rewrite removelast_last.
      apply in_app_or in Hq. apply in_or_app.
      destruct Hq as [Hq|[<-|[]]]; [left; exact Hq | right; rewrite E2; left; reflexivity]. }
    rewrite <- (firstn_skipn idx pts) in Hp. apply in_app_or in Hp.
    destruct Hp as [Hp|Hp].
    + destruct (Cl p) as [Hk | (s & Hs & Hds)].
      { rewrite firstn_snoc64 by lia. apply in_or_app. left. exact Hp. }
      * left. apply Ein. exact Hk.
      * right. exists s. split; [|exact Hds]. rewrite Eout. apply in_or_app. left. exact Hs.
    + destruct (Cr p Hp) as [Hk | (s & Hs & Hds)].
      * left. apply in_or_app. right. exact Hk.
      * right. exists s. split; [|exact Hds]. rewrite Eout. apply in_or_app. right. exact Hs.
Qed.

End Binary64Simplify.

Section Binary64Claims.
Import Binary64.
Local Open Scope float_scope.
#[local] Set Warnings "-inexact-float".

Lemma leb_not_ltb (a b : float) : (a <=? b) = true -> (b <? a) = false.
Proof.
  rewrite FloatAxioms.leb_spec, FloatAxioms.ltb_spec. unfold SFleb, SFltb.
  destruct (Prim2SF a) as [sa|sa| |sa ma ea], (Prim2SF b) as [sb|sb| |sb mb eb];
    cbn [SFcompare]; try discriminate; try reflexivity;
    try destruct sa; try destruct sb; try discriminate; try reflexivity;
    compare_cases; cbn [CompOpp]; try discriminate; try reflexivity; subst; lia.
Qed.

(** ** C2: the points dropped, as the code measures them *)

(** C2, with the distances as the code computes them.  For every point
    sequence and every tolerance [eps >= 0], [simplifyPoints] returns, and
    every input point is a point of the output or has an output segment from
    which [distToSegment], computed in binary64, measures it not farther than
    [eps]. *)
Theorem simplifyPoints_within_computed_epsilon (pts : list Point) (eps : float) :
  (0 <=? eps) = true ->
  exists out,
    (forall fuel, (length pts < fuel)%nat -> simplifyPoints fuel pts eps = Some out) /\
    forall p, In p pts ->
      In p out \/
      exists s, In s (segmentsOf out) /\
                (eps <? distToSegment p (fst s) (snd s)) = false.
Proof.
  intros Heps. apply leb_not_ltb in Heps.
  destruct (simplifyPoints_total64 eps pts Heps) as [out E].
  exists out. split; [exact E|].
  apply (simplifyPoints_covered64 eps Heps (S (length pts))). apply E. lia.
Qed.

Lemma simplifyPoints_within_computed_epsilon_witness :
  (0 <=? 2) = true /\
  exists out,
    (forall fuel, (length wideStroke < fuel)%nat ->
       simplifyPoints fuel wideStroke 2 = Some out) /\
    forall p, In p wideStroke ->
      In p out \/
      exists s, In s (segmentsOf out) /\
                (2 <? distToSegment p (fst s) (snd s)) = false.
Proof.
  split; [reflexivity|].
  apply (simplifyPoints_within_computed_epsilon wideStroke 2). reflexivity.
Defined.

(** ** More on the simplification *)

(** X5.  When, for an input of three points or more and a tolerance that is
    not negative, the code measures no inner point farther than the
    tolerance from the segment between the two ends, the simplification is the
    two ends alone. *)
Theorem simplifyPoints_collapses_binary64 (fuel : nat) (pts : list Point) (eps : float) :
  (3 <= length pts)%nat -> (0 <=? eps) = true ->
  (forall i, (1 <= i < length pts - 1)%nat ->
     (eps <? distToSegment (nth i pts origin) (nth 0 pts origin)
                           (nth (length pts - 1) pts origin)) = false) ->
  simplifyPoints (S fuel) pts eps
  = Some [nth 0 pts origin; nth (length pts - 1) pts origin].
Proof.
  intros Hlen Heps Hall. apply leb_not_ltb in Heps.
  apply simplifyPoints_collapse64; [exact Hlen|].
  destruct (scan_spec64 pts (length pts - 1)) as (_ & _ & [E | (Hr & Hd & _)]).
  - rewrite E. exact Heps.
  - rewrite Hd. apply Hall. exact Hr.
Qed.

Lemma simplifyPoints_collapses_binary64_witness :
  simplifyPoints 1 wideStroke 2 = Some [nth 0 wideStroke origin; nth 4 wideStroke origin].
Proof.
  apply (simplifyPoints_collapses_binary64 0 wideStroke 2); [cbn; lia | reflexivity |].
  intros i Hi. cbn [length wideStroke] in Hi.
  assert (C : i = 1%nat \/ i = 2%nat \/ i = 3%nat) by (cbn in Hi; lia).
  destruct C as [->|[->| ->]]; vm_compute; reflexivity.
Defined.

(** ** The output is a subsequence of the input *)

Lemma subseq_trans {A : Type} (l1 l2 l3 : list A) :
  subseq l1 l2 -> subseq l2 l3 -> subseq l1 l3.
Proof.
  intros H12 H23. revert l1 H12.
  induction H23 as [|a l2 l3 H IH|a l2 l3 H IH]; intros l1 H12.
  - exact H12.
  - apply subseq_skip. apply IH. exact H12.
  - inversion H12 as [|b m1 m2 Hm|b m1 m2 Hm]; subst.
    + apply subseq_skip. apply IH. exact Hm.
    + apply subseq_keep. apply IH. exact Hm.
Qed.

Lemma subseq_firstn {A : Type} (n : nat) (l : list A) : subseq (firstn n l) l.
Proof.
  revert n. induction l as [|a l IH]; intros [|n]; cbn.
  - apply subseq_nil.
  - apply subseq_nil.
  - apply subseq_nil_l.
  - apply subseq_keep. apply IH.
Qed.

Lemma subseq_ends64 (pts : list Point) :
  (2 <= length pts)%nat ->
  subseq [nth 0 pts origin; nth (length pts - 1) pts origin] pts.
Proof.
  intros Hlen. destruct pts as [|a r]; [cbn in Hlen; lia|].
  cbn [length]. replace (S (length r) - 1)%nat with (length r) by lia.
  change (nth 0 (a :: r) origin) with a. apply subseq_keep.
  assert (Hr : r <> []) by (intros ->; cbn in Hlen; lia).
  replace (nth (length r) (a :: r) origin) with (last r origin).
  - rewrite (app_removelast_last origin Hr) at 2.
    apply (subseq_app [] (removelast r) [last r origin] [last r origin]).
    + apply subseq_nil_l.
    + apply subseq_refl.
  - rewrite last_nth. destruct r; [contradiction|]. cbn. rewrite Nat.sub_0_r.
    reflexivity.
Qed.

Lemma simplifyPoints_subseq64 (eps : float) (fuel : nat) (pts out : list Point) :
  simplifyPoints fuel pts eps = Some out -> subseq out pts.
Proof.
  revert fuel pts out. apply (simplifyPoints_ind64 eps (fun pts out => subseq out pts)).
  - intros pts _. apply subseq_refl.
  - intros pts Hlen _. apply subseq_ends64. lia.
  - intros pts res1 res2 fuel Hlen Hd _ _ H1 H2.
    assert (Hidx := scan_index_range64 pts Hlen).
    set (idx := snd (scan pts (length pts - 1))) in *.
    rewrite <- (firstn_skipn idx pts) at 1.
    apply subseq_app; [|exact H2].
    rewrite firstn_snoc64 in H1 by lia.
    apply subseq_removelast in H1. rewrite removelast_last in H1. exact H1.
Qed.

(** X31.  On binary64 numbers, for every point sequence and every tolerance
    that is not negative, [simplifyPoints] returns, and what it returns is a
    subsequence of the input whose first and last elements are the first and
    last input points. *)
Theorem simplifyPoints_subsequence_binary64 (pts : list Point) (eps : float) :
  (0 <=? eps) = true ->
  exists out,
    (forall fuel, (length pts < fuel)%nat -> simplifyPoints fuel pts eps = Some out) /\
    subseq out pts /\
    (forall d, hd d out = hd d pts /\ last out d = last pts d).
Proof.
  intros Heps. apply leb_not_ltb in Heps.
  destruct (simplifyPoints_total64 eps pts Heps) as [out E].
  assert (E1 := E (S (length pts)) (Nat.lt_succ_diag_r _)).
  exists out. split; [exact E|]. split; [apply (simplifyPoints_subseq64 _ _ _ _ E1)|].
  intros d. destruct (Nat.lt_ge_cases (length pts) 2) as [H|H].
  - rewrite simplifyPoints_short64 in E1 by lia. injection E1 as <-. split; reflexivity.
  - destruct (simplifyPoints_keepsEnds64 _ _ _ _ Heps E1 H) as [mid ->]. split.
    + destruct pts; [cbn in H; lia | reflexivity].
    + rewrite app_comm_cons, last_last, (last_nth pts d).
      apply nth_indep. lia.
Qed.

Lemma simplifyPoints_subsequence_binary64_witness :
  (0 <=? 2) = true /\
  exists out,
    (forall fuel, (length wideStroke < fuel)%nat ->
       simplifyPoints fuel wideStroke 2 = Some out) /\
    subseq out wideStroke /\
    (forall d, hd d out = hd d wideStroke /\ last out d = last wideStroke d).
Proof.
  split; [reflexivity|].
  apply (simplifyPoints_subsequence_binary64 wideStroke 2). reflexivity.
Defined.

(** ** Distance *)

(** X1.  On binary64 numbers [distance] is symmetric and never negative, and
    the distance from a point with finite coordinates to itself is 0.  It is
    not a metric: the distance between two different points can be 0 (the
    squares of small differences underflow), and the triangle inequality can
    fail by rounding. *)
Theorem distance_properties_binary64 :
  (forall p q, distance p q = distance q p) /\
  (forall p q, (distance p q <? 0) = false) /\
  (forall p, is_finite (x p) = true -> is_finite (y p) = true -> distance p p = 0) /\
  (exists p q, p <> q /\ distance p q = 0) /\
  (exists p q r, (distance p q + distance q r <? distance p r) = true).
Proof.
  split; [|split; [|split; [|split]]].
  - intros p q. unfold distance, pow2.
    rewrite (square_sub_swap (x q) (x p)), (square_sub_swap (y q) (y p)). reflexivity.
  - intros p q. apply sqrt_not_negative.
  - intros p Hx Hy. unfold distance. rewrite (sub_same _ Hx), (sub_same _ Hy). reflexivity.
  - exists (mkPoint 0 0), (mkPoint 1e-200 0). split; [|vm_compute; reflexivity].
    intros H. assert (C := f_equal (fun p => x p =? 0) H). vm_compute in C. discriminate.
  - exists (mkPoint 0 0), (mkPoint 1 1), (mkPoint 4 4). vm_compute. reflexivity.
Qed.

(** ** The segment of length zero *)

Lemma distToSegment_degenerate64 (p v : Point) :
  is_finite (x v) = true -> is_finite (y v) = true ->
  distToSegment p v v = distance p v.
Proof.
  intros Hx Hy. unfold distToSegment. cbv zeta.
  unfold distance at 1. rewrite (sub_same _ Hx), (sub_same _ Hy). reflexivity.
Qed.

(** ** C9: what returns *)

Lemma shapeEpsilon_not_negative (pts : list Point) : (shapeEpsilon pts <? 0) = false.
Proof.
  unfold shapeEpsilon, Math_sqrt.
  apply mul_not_negative; [apply sqrt_not_negative | reflexivity].
Qed.

Lemma recognizeShape_few64 (Math_cos Math_sin : float -> float) (fuel : nat)
    (pts : list Point) :
  (length pts < 10)%nat -> recognizeShape Math_cos Math_sin fuel pts = Returned None.
Proof.
  intros H. unfold recognizeShape. apply Nat.ltb_lt in H. rewrite H. reflexivity.
Qed.

Lemma recognizeShape_open64 (Math_cos Math_sin : float -> float) (fuel : nat)
    (pts : list Point) :
  (10 <= length pts)%nat -> closedStroke pts = false ->
  recognizeShape Math_cos Math_sin fuel pts
  = if totalLength pts
       <? distance (nth 0 pts origin) (nth (length pts - 1) pts origin) * 1.2
    then Returned (Some [nth 0 pts origin; nth (length pts - 1) pts origin])
    else Returned None.
Proof.
  intros Hlen Hc. unfold recognizeShape.
  assert (E : (length pts <? 10)%nat = false) by (apply Nat.ltb_ge; lia).
  rewrite E. unfold closedStroke in Hc. rewrite Hc. reflexivity.
Qed.

Lemma recognizeShape_closed64 (Math_cos Math_sin : float -> float) (fuel : nat)
    (pts simplified : list Point) :
  (10 <= length pts)%nat -> closedStroke pts = true ->
  simplifyPoints fuel pts (shapeEpsilon pts) = Some simplified ->
  recognizeShape Math_cos Math_sin fuel pts
  = Returned (classifyClosed Math_cos Math_sin pts simplified).
Proof.
  intros Hlen Hc Hs. unfold recognizeShape.
  assert (E : (length pts <? 10)%nat = false) by (apply Nat.ltb_ge; lia).
  rewrite E. unfold closedStroke in Hc. rewrite Hc. cbn [negb].
  unfold shapeEpsilon, boxWidth, boxHeight in Hs. cbv zeta. rewrite Hs.
  cbn [fromOption bind]. unfold classifyClosed, boxWidth, boxHeight.
  destruct (Z.of_nat (length simplified) - 1 =? 3)%Z; [reflexivity|].
  destruct (Z.of_nat (length simplified) - 1 =? 4)%Z; [reflexivity|].
  destruct (Z.of_nat (length simplified) - 1 >=? 5)%Z; reflexivity.
Qed.

Lemma recognizeShape_returns64 (Math_cos Math_sin : float -> float) (pts : list Point) :
  exists r, forall fuel, (length pts < fuel)%nat ->
    recognizeShape Math_cos Math_sin fuel pts = Returned r.
Proof.
  destruct (Nat.lt_ge_cases (length pts) 10) as [Hlen|Hlen].
  { exists None. intros fuel _. apply recognizeShape_few64. exact Hlen. }
  destruct (closedStroke pts) eqn:Hc.
  - destruct (simplifyPoints_total64 _ pts (shapeEpsilon_not_negative pts)) as [simplified E].
    eexists. intros fuel Hf.
    apply (recognizeShape_closed64 _ _ fuel pts simplified Hlen Hc). apply E. exact Hf.
  - destruct (totalLength pts
               <? distance (nth 0 pts origin) (nth (length pts - 1) pts origin) * 1.2) eqn:B;
      eexists; intros fuel _;
      rewrite (recognizeShape_open64 _ _ fuel pts Hlen Hc), B; reflexivity.
Qed.

(** C9, for the core on binary64 numbers, with [simplifyPoints] on
    tolerances that are not negative.  [distToSegment] answers a segment
    whose computed squared length is zero with [distance p v], and divides by
    [l2] otherwise only; the hit test answers [false] on fewer than two
    points; [simplifyPoints] returns for every tolerance [eps] for which
    [eps < 0] is false, which holds for the tolerance the recogniser passes;
    [recognizeShape] answers none on fewer than 10 points and returns on every
    input, whatever [Math.cos] and [Math.sin] are. *)
Theorem core_operations_return_binary64 :
  (forall p v w, (pow2 (distance v w) =? 0) = true -> distToSegment p v w = distance p v) /\
  (forall p v w, (pow2 (distance v w) =? 0) = false ->
     distToSegment p v w
     = let t := ((x p - x v) * (x w - x v) + (y p - y v) * (y w - y v))
                / pow2 (distance v w) in
       let t := Math_max 0 (Math_min 1 t) in
       distance p (mkPoint (x v + t * (x w - x v)) (y v + t * (y w - y v)))) /\
  (forall point path t, (length (points path) < 2)%nat ->
     isPointNearPath point path t = false) /\
  (forall pts eps, (eps <? 0) = false ->
     exists out, forall fuel, (length pts < fuel)%nat ->
       simplifyPoints fuel pts eps = Some out) /\
  (forall pts, (shapeEpsilon pts <? 0) = false) /\
  (forall Math_cos Math_sin fuel pts, (length pts < 10)%nat ->
     recognizeShape Math_cos Math_sin fuel pts = Returned None) /\
  (forall Math_cos Math_sin pts, exists r, forall fuel, (length pts < fuel)%nat ->
     recognizeShape Math_cos Math_sin fuel pts = Returned r).
Proof.
  split; [|split; [|split; [|split; [|split; [|split]]]]].
  - intros p v w H. unfold distToSegment. cbv zeta. rewrite H. reflexivity.
  - intros p v w H. unfold distToSegment. cbv zeta. rewrite H. reflexivity.
  - intros point path t H. unfold isPointNearPath.
    apply Nat.ltb_lt in H. rewrite H. reflexivity.
  - intros pts eps Heps. apply simplifyPoints_total64. exact Heps.
  - apply shapeEpsilon_not_negative.
  - intros Math_cos Math_sin fuel pts H. apply recognizeShape_few64. exact H.
  - apply recognizeShape_returns64.
Qed.

(** On the tiny stroke the squares of all coordinates underflow: the five
    vertex distances are 0, the mean distance [avgDist] by which the branch
    [n >= 5] divides is 0, [cv] is NaN, and the polygon is returned. *)
Lemma recognizeShape_zero_mean_distance :
  exists simplified,
    simplifyPoints 12 tinyStroke (shapeEpsilon tinyStroke) = Some simplified /\
    length simplified = 6%nat /\
    avgDist (vertexDists simplified (boxCenter tinyStroke) 5) 5 = 0 /\
    is_nan (coefficientOfVariation (vertexDists simplified (boxCenter tinyStroke) 5) 5) = true /\
    recognizeShape cosAtEnds sinAtEnds 12 tinyStroke = Returned (Some (firstn 5 simplified)).
Proof.
  eexists. split; [vm_compute; reflexivity|].
  split; [reflexivity|]. split; [vm_compute; reflexivity|].
  split; vm_compute; reflexivity.
Qed.

(** ** C5: circles *)

Lemma ellipsePoints_length64 (Math_cos Math_sin : float -> float) (c : Point) (rx ry : float) :
  length (ellipsePoints Math_cos Math_sin c rx ry) = 46%nat.
Proof. unfold ellipsePoints. rewrite length_map, length_seq. reflexivity. Qed.

Lemma ellipsePoints_nth64 (Math_cos Math_sin : float -> float) (c : Point) (rx ry : float)
    (i : nat) :
  (i <= 45)%nat ->
  nth i (ellipsePoints Math_cos Math_sin c rx ry) origin
  = mkPoint (x c + rx * Math_cos (number (Z.of_nat i) / 45 * Math_PI * 2))
            (y c + ry * Math_sin (number (Z.of_nat i) / 45 * Math_PI * 2)).
Proof.
  intros Hi. unfold ellipsePoints.
  set (f := fun i : nat => mkPoint _ _).
  rewrite (nth_indep _ origin (f 0%nat)) by (rewrite length_map, length_seq; cbn; lia).
  rewrite map_nth, seq_nth by (cbn; lia). reflexivity.
Qed.

Lemma simplifyPoints_same_result (eps : float) (pts out : list Point) (f0 fuel : nat) :
  (eps <? 0) = false ->
  simplifyPoints f0 pts eps = Some out -> (length pts < fuel)%nat ->
  simplifyPoints fuel pts eps = Some out.
Proof.
  intros Heps E0 Hf.
  destruct (simplifyPoints_total64 eps pts Heps) as [out' E].
  assert (E1 := simplifyPoints_fuel_mono64 eps f0 pts out (Nat.max f0 (S (length pts))) E0
                  (Nat.le_max_l _ _)).
  rewrite (E (Nat.max f0 (S (length pts)))) in E1 by lia.
  injection E1 as ->. apply E. exact Hf.
Qed.

(** C5, on binary64 numbers.  A closed stroke of at least 10 points whose
    simplification has [n + 1] points with [n >= 5], and for which the
    coefficient of variation that the code computes from the distances of the
    first [n] simplified vertices to the centre of the bounding box is below
    0.15, is replaced by 46 points: point [i] is the centre plus
    [(rx * Math.cos (angle), ry * Math.sin (angle))] for the angle
    [i / 45 * Math.PI * 2], every operation rounded, with [rx] and [ry] half
    the width and half the height of the bounding box of the input. *)
Theorem recognizeShape_ellipse_binary64 (Math_cos Math_sin : float -> float)
    (fuel : nat) (pts simplified : list Point) :
  (length pts < fuel)%nat ->
  (10 <= length pts)%nat ->
  closedStroke pts = true ->
  (exists f0, simplifyPoints f0 pts (shapeEpsilon pts) = Some simplified) ->
  (5 <= Z.of_nat (length simplified) - 1)%Z ->
  (coefficientOfVariation
     (vertexDists simplified (boxCenter pts) (Z.of_nat (length simplified) - 1))
     (Z.of_nat (length simplified) - 1) <? 0.15) = true ->
  exists out,
    recognizeShape Math_cos Math_sin fuel pts = Returned (Some out) /\
    length out = 46%nat /\
    forall i, (i <= 45)%nat ->
      nth i out origin
      = mkPoint (x (boxCenter pts)
                 + boxWidth pts / 2 * Math_cos (number (Z.of_nat i) / 45 * Math_PI * 2))
                (y (boxCenter pts)
                 + boxHeight pts / 2 * Math_sin (number (Z.of_nat i) / 45 * Math_PI * 2)).
Proof.
  intros Hf Hlen Hclosed [f0 E0] Hn Hcv.
  exists (ellipsePoints Math_cos Math_sin (boxCenter pts) (boxWidth pts / 2) (boxHeight pts / 2)).
  split; [|split; [apply ellipsePoints_length64 |
                   intros i Hi; apply ellipsePoints_nth64; exact Hi]].
  rewrite (recognizeShape_closed64 _ _ fuel pts simplified Hlen Hclosed)
    by (apply (simplifyPoints_same_result _ _ _ f0);
        [apply shapeEpsilon_not_negative | exact E0 | exact Hf]).
  unfold classifyClosed.
  replace (Z.of_nat (length simplified) - 1 =? 3)%Z with false by (symmetry; apply Z.eqb_neq; lia).
  replace (Z.of_nat (length simplified) - 1 =? 4)%Z with false by (symmetry; apply Z.eqb_neq; lia).
  replace (Z.of_nat (length simplified) - 1 >=? 5)%Z with true
    by (symmetry; apply Z.geb_le; lia).
  unfold classifyRound. cbv zeta.
  unfold coefficientOfVariation, avgDist, vertexDists, boxCenter in Hcv.
  rewrite Hcv. reflexivity.
Qed.

Lemma recognizeShape_ellipse_binary64_witness :
  exists out,
    recognizeShape cosAtEnds sinAtEnds 11 circleStroke = Returned (Some out) /\
    length out = 46%nat /\
    forall i, (i <= 45)%nat ->
      nth i out origin
      = mkPoint (x (boxCenter circleStroke)
                 + boxWidth circleStroke / 2 * cosAtEnds (number (Z.of_nat i) / 45 * Math_PI * 2))
                (y (boxCenter circleStroke)
                 + boxHeight circleStroke / 2 * sinAtEnds (number (Z.of_nat i) / 45 * Math_PI * 2)).
Proof.
  apply (recognizeShape_ellipse_binary64 cosAtEnds sinAtEnds 11 circleStroke
           [mkPoint 5 0; mkPoint 3 4; mkPoint 0 5; mkPoint (-5) 0; mkPoint 0 (-5); mkPoint 5 0]).
  - cbn; lia.
  - cbn; lia.
  - reflexivity.
  - exists 11%nat. vm_compute. reflexivity.
  - cbn; lia.
  - vm_compute. reflexivity.
Defined.

(** C5, counterexample: the closing point is not the first point.  With a
    sine that is not zero at the binary64 number [Math.PI * 2] the stroke
    around the circle of radius 5 is replaced by 46 points of which the first
    is (5, 0) and the last (5, -1.2246467991473533e-15). *)
Lemma recognizeShape_ellipse_not_closed :
  exists out,
    recognizeShape cosAtEnds sinAtEnds 11 circleStroke = Returned (Some out) /\
    length out = 46%nat /\
    nth 0 out origin = mkPoint 5 0 /\
    nth 45 out origin = mkPoint 5 (-0x1.60fafbfd97309p-50) /\
    nth 45 out origin <> nth 0 out origin.
Proof.
  eexists. split; [vm_compute; reflexivity|].
  split; [reflexivity|]. split; [reflexivity|]. split; [reflexivity|].
  cbn [nth]. intros H.
  assert (C := f_equal (fun p => y p =? 0) H). vm_compute in C. discriminate.
Qed.

(** ** Where the points of a recognised shape come from *)

Lemma classifyClosed_result64 (Math_cos Math_sin : float -> float)
    (pts simplified out : list Point) :
  subseq simplified pts ->
  classifyClosed Math_cos Math_sin pts simplified = Some out ->
  subseq out pts \/
  out = [mkPoint (minOf (map x pts)) (minOf (map y pts));
         mkPoint (maxOf (map x pts)) (minOf (map y pts));
         mkPoint (maxOf (map x pts)) (maxOf (map y pts));
         mkPoint (minOf (map x pts)) (maxOf (map y pts))] \/
  out = ellipsePoints Math_cos Math_sin (boxCenter pts)
                      (boxWidth pts / 2) (boxHeight pts / 2).
Proof.
  intros Hs. unfold classifyClosed.
  destruct (Z.of_nat (length simplified) - 1 =? 3)%Z.
  { intros H. left. assert (E : out = firstn 3 simplified) by congruence.
    rewrite E. apply (subseq_trans _ simplified); [apply subseq_firstn | exact Hs]. }
  destruct (Z.of_nat (length simplified) - 1 =? 4)%Z.
  { intros H. right. left. congruence. }
  destruct (Z.of_nat (length simplified) - 1 >=? 5)%Z; [|discriminate].
  unfold classifyRound. cbv zeta.
  destruct (_ <? 0.15); intros H.
  - right. right. unfold boxCenter. congruence.
  - left. assert (E : out = firstn (Z.to_nat (Z.of_nat (length simplified) - 1)) simplified)
      by congruence.
    rewrite E. apply (subseq_trans _ simplified); [apply subseq_firstn | exact Hs].
Qed.

(** X15.  The recogniser returns, and what it returns is nothing, a
    subsequence of the input points (a line, a triangle or a polygon), the
    four corners of the bounding box of the input, or the 46 points of the
    ellipse in that box. *)
Theorem recognizeShape_result_binary64 (Math_cos Math_sin : float -> float)
    (fuel : nat) (pts : list Point) :
  (length pts < fuel)%nat ->
  exists r,
    recognizeShape Math_cos Math_sin fuel pts = Returned r /\
    (r = None \/
     exists out, r = Some out /\
       (subseq out pts \/
        out = [mkPoint (minOf (map x pts)) (minOf (map y pts));
               mkPoint (maxOf (map x pts)) (minOf (map y pts));
               mkPoint (maxOf (map x pts)) (maxOf (map y pts));
               mkPoint (minOf (map x pts)) (maxOf (map y pts))] \/
        out = ellipsePoints Math_cos Math_sin (boxCenter pts)
                            (boxWidth pts / 2) (boxHeight pts / 2))).
Proof.
  intros Hf.
  destruct (Nat.lt_ge_cases (length pts) 10) as [Hlen|Hlen].
  { exists None. split; [apply recognizeShape_few64; exact Hlen | left; reflexivity]. }
  destruct (closedStroke pts) eqn:Hc.
  - destruct (simplifyPoints_total64 _ pts (shapeEpsilon_not_negative pts)) as [simplified E].
    specialize (E fuel Hf). eexists. split.
    + apply (recognizeShape_closed64 _ _ fuel pts simplified Hlen Hc E).
    + destruct (classifyClosed Math_cos Math_sin pts simplified) as [out|] eqn:C;
        [|left; reflexivity].
      right. exists out. split; [reflexivity|].
      apply (classifyClosed_result64 _ _ pts simplified); [|exact C].
      apply (simplifyPoints_subseq64 _ _ _ _ E).
  - rewrite (recognizeShape_open64 _ _ fuel pts Hlen Hc).
    destruct (_ <? _); eexists; (split; [reflexivity|]); [|left; reflexivity].
    right. eexists. split; [reflexivity|]. left. apply subseq_ends64. lia.
Qed.

Lemma recognizeShape_result_binary64_witness :
  exists r,
    recognizeShape cosAtEnds sinAtEnds 11 circleStroke = Returned r /\
    (r = None \/
     exists out, r = Some out /\
       (subseq out circleStroke \/
        out = [mkPoint (minOf (map x circleStroke)) (minOf (map y circleStroke));
               mkPoint (maxOf (map x circleStroke)) (minOf (map y circleStroke));
               mkPoint (maxOf (map x circleStroke)) (maxOf (map y circleStroke));
               mkPoint (minOf (map x circleStroke)) (maxOf (map y circleStroke))] \/
        out = ellipsePoints cosAtEnds sinAtEnds (boxCenter circleStroke)
                            (boxWidth circleStroke / 2) (boxHeight circleStroke / 2))).
Proof.
  apply (recognizeShape_result_binary64 cosAtEnds sinAtEnds 11 circleStroke). cbn. lia.
Defined.

(** ** Shape correction of the stroke in progress *)

Lemma classifyClosed_at_least_two64 (Math_cos Math_sin : float -> float)
    (pts simplified out : list Point) :
  classifyClosed Math_cos Math_sin pts simplified = Some out -> (2 <= length out)%nat.
Proof.
  unfold classifyClosed.
  destruct (Z.of_nat (length simplified) - 1 =? 3)%Z eqn:E3.
  { intros H. assert (E : out = firstn 3 simplified) by congruence.
    apply Z.eqb_eq in E3. rewrite E, length_firstn. lia. }
  destruct (Z.of_nat (length simplified) - 1 =? 4)%Z eqn:E4.
  { intros H. injection H as <-. cbn. lia. }
  destruct (Z.of_nat (length simplified) - 1 >=? 5)%Z eqn:E5; [|discriminate].
  apply Z.geb_le in E5. unfold classifyRound. cbv zeta.
  destruct (_ <? 0.15); intros H.
  - assert (E : out = ellipsePoints Math_cos Math_sin
                        (mkPoint (minOf (map x pts) + boxWidth pts / 2)
                                 (minOf (map y pts) + boxHeight pts / 2))
                        (boxWidth pts / 2) (boxHeight pts / 2)) by congruence.
    rewrite E, ellipsePoints_length64. lia.
  - assert (E : out = firstn (Z.to_nat (Z.of_nat (length simplified) - 1)) simplified)
      by congruence.
    rewrite E, length_firstn. lia.
Qed.

(** X29.  The correction returns, never drops the stroke in progress and
    never changes its colour, width, tool or opacity.  When it changes the
    stroke, the stroke is marked as a shape and has at least two points. *)
Theorem shapeCorrection_result_binary64 (Math_cos Math_sin : float -> float)
    (fuel : nat) (path : DrawingPath) :
  (length (points path) < fuel)%nat ->
  exists path',
    shapeCorrection Math_cos Math_sin fuel (Some path) = Returned (Some path') /\
    color path' = color path /\ width path' = width path /\
    tool path' = tool path /\ opacity path' = opacity path /\
    (path' = path \/
     (isShape path' = Some true /\ (2 <= length (points path'))%nat)).
Proof.
  intros Hf. unfold shapeCorrection.
  destruct (length (points path) <? 5)%nat eqn:E5.
  { exists path. repeat (split; [reflexivity|]). left. reflexivity. }
  apply Nat.ltb_ge in E5.
  assert (Hr : exists r, recognizeShape Math_cos Math_sin fuel (points path) = Returned r
                         /\ forall out, r = Some out -> (2 <= length out)%nat).
  { destruct (Nat.lt_ge_cases (length (points path)) 10) as [Hlen|Hlen].
    { exists None. split; [apply recognizeShape_few64; exact Hlen | discriminate]. }
    destruct (closedStroke (points path)) eqn:Hc.
    - destruct (simplifyPoints_total64 _ (points path)
                  (shapeEpsilon_not_negative (points path))) as [simplified E].
      eexists. split.
      + apply (recognizeShape_closed64 _ _ fuel _ simplified Hlen Hc). apply E. exact Hf.
      + intros out. apply classifyClosed_at_least_two64.
    - rewrite (recognizeShape_open64 _ _ fuel _ Hlen Hc).
      destruct (_ <? _); eexists; (split; [reflexivity|]); intros out H;
        [injection H as <-; cbn; lia | discriminate]. }
  destruct Hr as (r & -> & Hr). cbn [bind].
  destruct r as [out|].
  - eexists. split; [reflexivity|]. cbn.
    repeat (split; [reflexivity|]). right. split; [reflexivity|].
    apply Hr. reflexivity.
  - exists path. repeat (split; [reflexivity|]). left. reflexivity.
Qed.

Lemma shapeCorrection_result_binary64_witness :
  exists path',
    shapeCorrection cosAtEnds sinAtEnds 11 (Some rectPath) = Returned (Some path') /\
    color path' = color rectPath /\ width path' = width rectPath /\
    tool path' = tool rectPath /\ opacity path' = opacity rectPath /\
    (path' = rectPath \/
     (isShape path' = Some true /\ (2 <= length (points path'))%nat)).
Proof.
  apply (shapeCorrection_result_binary64 cosAtEnds sinAtEnds 11 rectPath). cbn. lia.
Defined.

End Binary64Claims.

(** * Binary64 results against the exact geometry *)

Lemma exactValue_finite (f : float) (s : bool) (m : positive) (e : Z) :
  Prim2SF f = S754_finite s m e ->
  exactValue f = if (0 <=? e)%Z then IZR (cond_Zopp s (Zpos m) * 2 ^ e)
                 else IZR (cond_Zopp s (Zpos m)) / IZR (2 ^ (- e)).
Proof. intros H. unfold exactValue. rewrite H. reflexivity. Qed.

(** Replaces [exactValue f], for a given number [f], by the fraction it
    stands for. *)
Ltac exact_value f :=
  let sf := eval vm_compute in (Prim2SF f) in
  lazymatch sf with
  | S754_finite ?s ?m ?e =>
      let num := eval vm_compute in (cond_Zopp s (Zpos m)) in
      let nonneg := eval vm_compute in (0 <=? e)%Z in
      lazymatch nonneg with
      | true =>
          let v := eval vm_compute in (num * 2 ^ e)%Z in
          replace (exactValue f) with (IZR v)
            by (symmetry; exact (exactValue_finite f s m e eq_refl))
      | false =>
          let d := eval vm_compute in (2 ^ (- e))%Z in
          replace (exactValue f) with (IZR num / IZR d)
            by (symmetry; exact (exactValue_finite f s m e eq_refl))
      end
  | _ => replace (exactValue f) with 0 by reflexivity
  end.

Ltac exact_values :=
  repeat match goal with |- context [exactValue ?f] => exact_value f end.

(** C2, counterexample: a point is dropped that lies farther than the
    tolerance from the output.  With tolerance 2 the simplification of the five
    points returns the two ends, both at x = 0.6 (in binary64,
    0.59999999999999997...), and drops the point at x = 2.6 (in binary64,
    2.60000000000000008...): the code computes its distance as 2, and every
    point of the segment between the two ends is farther than 2 from it. *)
Lemma simplifyPoints_drops_point_beyond_epsilon :
  Binary64.simplifyPoints 6 Binary64.wideStroke 2
  = Some [Binary64.wideA; Binary64.wideE] /\
  In Binary64.wideD Binary64.wideStroke /\
  Binary64.distToSegment Binary64.wideD Binary64.wideA Binary64.wideE = 2%float /\
  forall t, 0 <= t <= 1 ->
    exactValue 2 < distance (exactPoint Binary64.wideD)
                     (pointAt (exactPoint Binary64.wideA) (exactPoint Binary64.wideE) t).
Proof.
  split; [vm_compute; reflexivity|].
  split; [right; right; right; left; reflexivity|].
  split; [vm_compute; reflexivity|].
  intros t Ht.
  assert (H := distance_ge_dx (exactPoint Binary64.wideD)
                 (pointAt (exactPoint Binary64.wideA) (exactPoint Binary64.wideE) t)).
  revert H. unfold exactPoint, pointAt, Binary64.wideA, Binary64.wideD, Binary64.wideE.
  cbn [x y Binary64.x Binary64.y].
  set (d := distance _ _). clearbody d.
  exact_values. lra.
Qed.

(** C8, counterexample: the value returned is not the minimum distance.
    The point (1, 1) lies on the segment from (0, 0) to (3, 3), at a third of
    it, so its distance to the segment is 0; the code returns
    3.1401849173675503e-16, as the squared length [l2] it divides by is the
    rounded square of a rounded square root. *)
Lemma distToSegment_positive_on_segment :
  Binary64.distToSegment (Binary64.mkPoint 1 1) (Binary64.mkPoint 0 0) (Binary64.mkPoint 3 3)
  = 0x1.6a09e667f3bcdp-52%float /\
  0 < exactValue 0x1.6a09e667f3bcdp-52 /\
  exactPoint (Binary64.mkPoint 1 1)
  = pointAt (exactPoint (Binary64.mkPoint 0 0)) (exactPoint (Binary64.mkPoint 3 3)) (1 / 3) /\
  distToSegment (exactPoint (Binary64.mkPoint 1 1)) (exactPoint (Binary64.mkPoint 0 0))
                (exactPoint (Binary64.mkPoint 3 3)) = 0.
Proof.
  assert (E : exactPoint (Binary64.mkPoint 1 1)
              = pointAt (exactPoint (Binary64.mkPoint 0 0))
                        (exactPoint (Binary64.mkPoint 3 3)) (1 / 3)).
  { apply Point_eq; unfold exactPoint, pointAt; cbn [x y Binary64.x Binary64.y];
      exact_values; lra. }
  split; [vm_compute; reflexivity|].
  split; [exact_values; lra|].
  split; [exact E|].
  apply Rle_antisym; [|apply distToSegment_nonneg].
  rewrite <- (distance_refl (exactPoint (Binary64.mkPoint 1 1))).
  rewrite E at 3. apply distToSegment_le_point. lra.
Qed.

(** C8, in exact arithmetic.  Computed without rounding, [distToSegment p v w]
    is the least distance from [p] to a point of the closed segment from [v]
    to [w]: it is the distance to some point of the segment and no point of
    the segment is nearer; when [v = w] it is [distance p v]; when the
    projection parameter is below 0 (above 1) it is the distance to [v] (to
    [w]), which is the nearer endpoint.  On binary64 numbers the case [v = w]
    holds as it is for a finite [v]. *)
Theorem distToSegment_min_distance :
  (forall p v w : Point,
     (exists t, 0 <= t <= 1 /\ distToSegment p v w = distance p (pointAt v w t)) /\
     (forall t, 0 <= t <= 1 -> distToSegment p v w <= distance p (pointAt v w t)) /\
     (v = w -> distToSegment p v w = distance p v) /\
     (v <> w -> projParam p v w < 0 ->
        distToSegment p v w = distance p v /\ distance p v <= distance p w) /\
     (v <> w -> 1 < projParam p v w ->
        distToSegment p v w = distance p w /\ distance p w <= distance p v)) /\
  (forall p v : Binary64.Point,
     is_finite (Binary64.x v) = true -> is_finite (Binary64.y v) = true ->
     Binary64.distToSegment p v v = Binary64.distance p v).
Proof.
  split; [exact distToSegment_min_distance_exact | exact distToSegment_degenerate64].
Qed.
